(** * INI parser: a shallow embedding of [pkg/parser] and its specification

    The Go package keeps a document in a [Parser] value (a map of sections,
    a map of global keys and the ordered list of section names) that every
    method mutates in place.  Here a method is a function from the document
    before the call to an [outcome]: the value the method returns together
    with the document after the call, or a run-time panic.

    Go strings are byte sequences; they are modelled by [string], whose
    characters are the bytes.  Maps are [gmap]s keyed by strings. *)

From Stdlib Require Import ssreflect Ascii NArith DecimalString.
From stdpp Require Import base option list sorting gmap strings.

#[local] Set Warnings "-rewrite-rw".

Local Open Scope char_scope.
Local Open Scope stdpp_scope.

(** ** Bytes and the [strings] package *)

Module Bytes.

Definition byte (n : N) : ascii := ascii_of_N n.

Definition LF : ascii := "010".
Definition CR : ascii := "013".
Definition TAB : ascii := "009".
Definition QUOTE : ascii := "034".
Definition BACKSLASH : ascii := "092".

(** [utf8.EncodeRune] for the code points of the Basic Multilingual
    Plane, which is all the white-space table needs. *)
Definition EncodeRune (r : N) : list ascii :=
  if (r <? 128)%N then [byte r]
  else if (r <? 2048)%N then
    [byte (N.lor 192 (N.shiftr r 6)); byte (N.lor 128 (N.land r 63))]
  else
    [byte (N.lor 224 (N.shiftr r 12));
     byte (N.lor 128 (N.land (N.shiftr r 6) 63));
     byte (N.lor 128 (N.land r 63))].

(** The code points for which [unicode.IsSpace] holds: the Latin-1
    cases of its switch and the [White_Space] range table. *)
Definition White_Space : list N :=
  [9; 10; 11; 12; 13; 32; 133; 160; 5760;
   8192; 8193; 8194; 8195; 8196; 8197; 8198; 8199; 8200; 8201; 8202;
   8232; 8233; 8239; 8287; 12288]%N.

Definition space_encodings : list (list ascii) := EncodeRune <$> White_Space.

Fixpoint is_prefix (p l : list ascii) : bool :=
  match p, l with
  | [], _ => true
  | _ :: _, [] => false
  | a :: p', b :: l' => bool_decide (a = b) && is_prefix p' l'
  end.

(** Number of bytes of the white-space rune at the head of [l] when one
    of the encodings in [encs] starts [l], and 0 otherwise. *)
Fixpoint space_width (encs : list (list ascii)) (l : list ascii) : nat :=
  match encs with
  | [] => 0
  | e :: encs' => if is_prefix e l then length e else space_width encs' l
  end.

(** [strings.TrimLeftFunc(s, unicode.IsSpace)]: drop white-space runes
    from the front; [fuel] bounds the number of runes dropped. *)
Fixpoint trim_left_space (encs : list (list ascii)) (fuel : nat)
    (l : list ascii) : list ascii :=
  match fuel with
  | 0 => l
  | S fuel' =>
      match space_width encs l with
      | 0 => l
      | w => trim_left_space encs fuel' (drop w l)
      end
  end.

(** [strings.TrimSpace] on bytes.  A white-space rune ends [l] exactly
    when its encoding, read backwards, starts the reversed list, so the
    right trim is the left trim of the reversal against the reversed
    encodings.  Bytes that are not part of a well-formed white-space
    encoding decode to some other rune (or to [utf8.RuneError]) and stop
    the trim. *)
Definition trim_space (l : list ascii) : list ascii :=
  let l1 := trim_left_space space_encodings (length l) l in
  reverse (trim_left_space (reverse <$> space_encodings) (length l1) (reverse l1)).

End Bytes.

Import Bytes.

Definition TrimSpace (s : string) : string :=
  String.string_of_list_ascii (trim_space (String.list_ascii_of_string s)).

(** [strings.HasPrefix(s, prefix)]. *)
Fixpoint HasPrefix (s prefix : string) {struct prefix} : bool :=
  match prefix, s with
  | EmptyString, _ => true
  | String _ _, EmptyString => false
  | String a prefix', String b s' => bool_decide (a = b) && HasPrefix s' prefix'
  end.

(** [s[n:]] for [n <= len(s)]. *)
Fixpoint string_drop (n : nat) (s : string) : string :=
  match n, s with
  | 0, _ => s
  | S _, EmptyString => EmptyString
  | S n', String _ s' => string_drop n' s'
  end.

(** [strings.HasSuffix(s, suffix)]:
    [len(s) >= len(suffix) && s[len(s)-len(suffix):] == suffix]. *)
Definition HasSuffix (s suffix : string) : bool :=
  bool_decide (String.length suffix ≤ String.length s)
  && bool_decide (string_drop (String.length s - String.length suffix) s = suffix).

(** Membership of a byte in an ASCII cutset. *)
Fixpoint in_cutset (c : ascii) (cutset : string) : bool :=
  match cutset with
  | EmptyString => false
  | String d cutset' => bool_decide (c = d) || in_cutset c cutset'
  end.

Fixpoint TrimLeft (s cutset : string) : string :=
  match s with
  | EmptyString => EmptyString
  | String c s' => if in_cutset c cutset then TrimLeft s' cutset else s
  end.

Fixpoint TrimRight (s cutset : string) : string :=
  match s with
  | EmptyString => EmptyString
  | String c s' =>
      match TrimRight s' cutset with
      | EmptyString => if in_cutset c cutset then EmptyString else String c EmptyString
      | r => String c r
      end
  end.

(** [strings.Trim(s, cutset)] for a cutset of ASCII bytes, the only kind
    the parser passes ([[]] and the double quote): every leading and every
    trailing byte of [s] that occurs in [cutset] is removed. *)
Definition Trim (s cutset : string) : string :=
  TrimRight (TrimLeft s cutset) cutset.

(** [strings.Cut(s, sep)] for a one-byte separator: the text before and
    after the first occurrence of [sep], if there is one. *)
Fixpoint Cut (s : string) (sep : ascii) : option (string * string) :=
  match s with
  | EmptyString => None
  | String c s' =>
      if bool_decide (c = sep) then Some (EmptyString, s')
      else '(before, after) ← Cut s' sep; Some (String c before, after)
  end.

(** [strings.SplitN(s, sep, n)] for a one-byte separator and [n >= 0]:
    at most [n] pieces, the last one being the unsplit remainder. *)
Fixpoint SplitN (s : string) (sep : ascii) (n : nat) : list string :=
  match n with
  | 0 => []
  | 1 => [s]
  | S n' =>
      match Cut s sep with
      | Some (before, after) => before :: SplitN after sep n'
      | None => [s]
      end
  end.

(** [strings.ReplaceAll(s, old, new)] for a non-empty [old]: the
    non-overlapping occurrences of [old] are replaced from left to right.
    [skip] counts the bytes of an occurrence that are still to be passed
    over.  (For an empty [old] Go inserts [new] around every rune; the
    parser only passes two-byte patterns and that case is left as the
    identity here.) *)
Fixpoint ReplaceAll_from (skip : nat) (s old new : string) : string :=
  match s with
  | EmptyString => EmptyString
  | String c s' =>
      match skip with
      | S k => ReplaceAll_from k s' old new
      | 0 =>
          if HasPrefix s old
          then new +:+ ReplaceAll_from (String.length old - 1) s' old new
          else String c (ReplaceAll_from 0 s' old new)
      end
  end.

Definition ReplaceAll (s old new : string) : string :=
  match old with
  | EmptyString => s
  | _ => ReplaceAll_from 0 s old new
  end.

(** The [%d] verb of [fmt] on an [int]. *)
Definition itoa (n : Z) : string := NilZero.string_of_int (Z.to_int n).

Definition str (c : ascii) : string := String c EmptyString.


(** [path.Ext]: the suffix of the last slash-separated element of [path]
    that starts at its last dot; empty when that element has no dot. *)
Fixpoint has_slash (path : string) : bool :=
  match path with
  | EmptyString => false
  | String c path' => bool_decide (c = "/"%char) || has_slash path'
  end.

Fixpoint Ext (path : string) : string :=
  match path with
  | EmptyString => EmptyString
  | String c path' =>
      if has_slash path' then Ext path'
      else match Ext path' with
           | EmptyString => if bool_decide (c = "."%char) then path else EmptyString
           | ext => ext
           end
  end.

(** ** Errors *)

(** An [error] value: one made by [fmt.Errorf] without [%w], or one that
    wraps its cause.  [Error] is the message. *)
Inductive error : Type :=
  | errorString (msg : string)
  | wrapError (msg : string) (cause : error).

Definition Error (e : error) : string :=
  match e with
  | errorString msg => msg
  | wrapError msg _ => msg
  end.

(** [fmt.Errorf(prefix + ": %w", cause)]. *)
Definition Errorf_w (prefix : string) (cause : error) : error :=
  wrapError (prefix +:+ ": " +:+ Error cause) cause.

(** [fmt.Errorf("line %d: " + reason + ": %s", lineNumber, line)]. *)
Definition Errorf_line (reason : string) (lineNumber : Z) (line : string) : error :=
  errorString ("line " +:+ itoa lineNumber +:+ ": " +:+ reason +:+ ": " +:+ line).

Definition InvalidKeyValuePair := Errorf_line "invalid key-value pair".
Definition EmptyKey := Errorf_line "key cannot be empty".
Definition EmptyValue := Errorf_line "value cannot be empty".

(** ** Go's [int] *)

Definition MaxInt : Z := 9223372036854775807.
Definition MinInt : Z := -9223372036854775808.

(** [n++] on a 64-bit [int]. *)
Definition incr (n : Z) : Z := if bool_decide (n = MaxInt) then MinInt else (n + 1)%Z.

(** ** [bufio.Scanner] *)

(** A scanner is what [parse] sees of it: the tokens that successive
    calls of [Scan] deliver, and the value of [Err] once [Scan] has
    returned false. *)
Record Scanner : Type := mkScanner {
  tokens : list string;
  Err : option error
}.

(** [bufio.ScanLines]: the text is cut after every newline; what follows
    the last newline is a line of its own unless it is empty. *)
Fixpoint raw_lines (text : string) : list string :=
  match text with
  | EmptyString => []
  | String c text' =>
      if bool_decide (c = LF) then EmptyString :: raw_lines text'
      else match raw_lines text' with
           | [] => [String c EmptyString]
           | l :: ls => String c l :: ls
           end
  end.

(** [dropCR]: a token loses one trailing carriage return. *)
Fixpoint dropCR (l : string) : string :=
  match l with
  | EmptyString => EmptyString
  | String c l' =>
      match l' with
      | EmptyString => if bool_decide (c = CR) then EmptyString else l
      | String _ _ => String c (dropCR l')
      end
  end.

Definition MaxScanTokenSize : N := 65536.
Definition ErrTooLong : error := errorString "bufio.Scanner: token too long".

Definition fits (l : string) : bool := (N.of_nat (String.length l) <? MaxScanTokenSize)%N.

(** [bufio.NewScanner(strings.NewReader(text))]: the lines of [text] up
    to the first one that does not fit the scanner's buffer, at which
    [Scan] stops with [ErrTooLong]. *)
Fixpoint scan (lines : list string) : list string * option error :=
  match lines with
  | [] => ([], None)
  | l :: lines' =>
      if fits l then let '(ts, e) := scan lines' in (dropCR l :: ts, e)
      else ([], Some ErrTooLong)
  end.

Definition NewScanner (text : string) : Scanner :=
  let '(ts, e) := scan (raw_lines text) in mkScanner ts e.

(** ** The document *)

Record Parser : Type := mkParser {
  data : gmap string (gmap string string);
  globalKeys : gmap string string;
  sections : list string
}.

Definition NewParser : Parser := mkParser ∅ ∅ [].

(** What a method that returns an [A] does to a document: it returns,
    leaving the document in some state, or it panics. *)
Inductive outcome (A : Type) : Type :=
  | Returned (a : A) (p : Parser)
  | Panicked.
Arguments Returned {A} a p.
Arguments Panicked {A}.

Definition method (A : Type) : Type := Parser → outcome A.

Definition ret {A} (a : A) : method A := λ p, Returned a p.

Definition bind {A B} (m : method A) (k : A → method B) : method B :=
  λ p, match m p with
       | Returned a p' => k a p'
       | Panicked => Panicked
       end.

(** A method without result that cannot panic is a function on documents. *)
Definition exec (f : Parser → Parser) : method () := λ p, Returned () (f p).

Notation "'do' x <- m ;; k" := (bind m (λ x, k))
  (at level 10, x name, m at level 99, k at level 200).

Definition createSectionIfNotExist (section : string) (p : Parser) : Parser :=
  match data p !! section with
  | Some _ => p
  | None => mkParser (<[section := ∅]> (data p)) (globalKeys p) (sections p ++ [section])
  end.

Definition unescape (value : string) : string :=
  let value := ReplaceAll value "\n" (str LF) in
  let value := ReplaceAll value "\r" (str CR) in
  let value := ReplaceAll value "\t" (str TAB) in
  Trim value (str QUOTE).

Definition parseKeyValue (line : string) (lineNumber : Z) (currentSection : string)
    : method (option error) := λ p,
  match SplitN line "=" 2 with
  | [part0; part1] =>
      let key := TrimSpace part0 in
      let value := TrimSpace part1 in
      if bool_decide (key = "") then Returned (Some (EmptyKey lineNumber line)) p
      else if bool_decide (value = "") then Returned (Some (EmptyValue lineNumber line)) p
      else
        let value := unescape value in
        if bool_decide (currentSection = "") then
          Returned None (mkParser (data p) (<[key := value]> (globalKeys p)) (sections p))
        else
          match data p !! currentSection with
          | Some sectionData =>
              Returned None
                (mkParser (<[currentSection := <[key := value]> sectionData]> (data p))
                          (globalKeys p) (sections p))
          | None => Panicked (* assignment to entry in nil map *)
          end
  | _ => Returned (Some (InvalidKeyValuePair lineNumber line)) p
  end.

Definition is_skipped (line : string) : bool :=
  bool_decide (line = "") || HasPrefix line ";" || HasPrefix line "#".

Definition is_header (line : string) : bool :=
  HasPrefix line "[" && HasSuffix line "]".

(** The loop of [parse] over the tokens still to come; [final] is
    [scanner.Err()]. *)
Fixpoint parse_loop (final : option error) (toks : list string)
    (currentSection : string) (lineNumber : Z) : method (option error) :=
  match toks with
  | [] => ret final
  | text :: toks' =>
      let lineNumber := incr lineNumber in
      let line := TrimSpace text in
      if is_skipped line then parse_loop final toks' currentSection lineNumber
      else if is_header line then
        let currentSection := Trim line "[]" in
        do _u <- exec (createSectionIfNotExist currentSection) ;;
        parse_loop final toks' currentSection lineNumber
      else
        do err <- parseKeyValue line lineNumber currentSection ;;
        match err with
        | Some e => ret (Some e)
        | None => parse_loop final toks' currentSection lineNumber
        end
  end.

Definition parse (scanner : Scanner) : method (option error) :=
  parse_loop (Err scanner) (tokens scanner) "" 0.

Definition GetSectionNames (p : Parser) : list string := sections p.
Definition GetSections (p : Parser) : gmap string (gmap string string) := data p.
Definition GetGlobalKeys (p : Parser) : gmap string string := globalKeys p.

Definition Get (section key : string) (p : Parser) : string * bool :=
  match data p !! section with
  | Some sectionData => (default "" (sectionData !! key), true)
  | None => ("", false)
  end.

Definition Set_ (section key value : string) (p : Parser) : Parser :=
  let data1 :=
    match data p !! section with
    | Some _ => data p
    | None => <[section := ∅]> (data p)
    end in
  mkParser (<[section := <[key := value]> (default ∅ (data1 !! section))]> data1)
           (globalKeys p)
           (sections p ++ [section]).

(** [sort.Strings]. *)
Definition sort_Strings (l : list string) : list string := merge_sort String.le l.

Definition entry_line (k v : string) : string := k +:+ "=" +:+ v +:+ str LF.
Definition header_line (name : string) : string := "[" +:+ name +:+ "]" +:+ str LF.

(** [ToString].  The order in which [range] visits a map is not fixed by
    Go; [range m] is the order taken for [m], some arrangement of its
    entries.  The string builder is the accumulator of the folds. *)
Definition ToString (range : gmap string string → list (string * string))
    (p : Parser) : string :=
  let builder :=
    foldl (λ b kv, b +:+ entry_line kv.1 kv.2) "" (range (globalKeys p)) in
  foldl (λ b sectionName,
           let sectionData := default ∅ (data p !! sectionName) in
           let sortedKeys := sort_Strings ((range sectionData).*1) in
           let b := b +:+ header_line sectionName in
           foldl (λ b key, b +:+ entry_line key (default "" (sectionData !! key)))
                 b sortedKeys)
        builder (sections p).

Definition LoadFromString (text : string) : method (option error) :=
  do err <- parse (NewScanner text) ;;
  match err with
  | Some e => ret (Some (Errorf_w "failed to parse input string" e))
  | None => ret None
  end.

(** [ParseFile]; [os_Open path] is what opening and scanning the file at
    [path] gives: an error, or the scanner over its contents. *)
Definition ParseFile (os_Open : string → error + Scanner) (filePath : string)
    : method (option error) :=
  if bool_decide (Ext filePath ≠ ".ini") then
    ret (Some (errorString ".ini format is only support"))
  else
    match os_Open filePath with
    | inl e => ret (Some e)
    | inr scanner =>
        do err <- parse scanner ;;
        match err with
        | Some e => ret (Some (Errorf_w "failed to parse file" e))
        | None => ret None
        end
    end.

(** ** Vocabulary of the specification *)

Definition chars (s : string) : list ascii := String.list_ascii_of_string s.

Definition concat_strings (l : list string) : string := foldr String.append "" l.

(** An assignment line that passes the checks of [parseKeyValue]: it has
    an [=], and the text on either side of the first one is not blank. *)
Definition well_formed (line : string) : bool :=
  match SplitN line "=" 2 with
  | [part0; part1] =>
      negb (bool_decide (TrimSpace part0 = "")) && negb (bool_decide (TrimSpace part1 = ""))
  | _ => false
  end.

(** A line of input that does not stop the parse. *)
Definition accepted (text : string) : bool :=
  let line := TrimSpace text in
  is_skipped line || is_header line || well_formed line.

(** The lines a parse pass gets through: those before the first one that
    is not accepted. *)
Fixpoint lines_read (toks : list string) : list string :=
  match toks with
  | [] => []
  | text :: toks' => if accepted text then text :: lines_read toks' else []
  end.

(** The section name announced by a line of input, if it is a header. *)
Definition header_name (text : string) : option string :=
  let line := TrimSpace text in
  if is_skipped line then None
  else if is_header line then Some (Trim line "[]") else None.

Definition header_names (toks : list string) : list string := omap header_name toks.

(** The names of [names] that are not in [seen], each once, in the order
    in which they first occur. *)
Fixpoint first_appearance (seen names : list string) : list string :=
  match names with
  | [] => []
  | x :: names' =>
      if bool_decide (x ∈ seen) then first_appearance seen names'
      else x :: first_appearance (x :: seen) names'
  end.

(** Several parse passes over one document, one after the other, whether
    they succeed or not. *)
Fixpoint parse_all (scanners : list Scanner) (p : Parser) : outcome () :=
  match scanners with
  | [] => Returned () p
  | sc :: scanners' =>
      match parse sc p with
      | Returned _ p' => parse_all scanners' p'
      | Panicked => Panicked
      end
  end.

(** The escape substitution as the specification words it: one pass over
    the text in which each backslash followed by [n], [r] or [t] becomes
    the control character. *)
Fixpoint replace_escapes (s : string) : string :=
  match s with
  | EmptyString => EmptyString
  | String c s' =>
      match s' with
      | EmptyString => s
      | String d s'' =>
          if bool_decide (c = BACKSLASH) && bool_decide (d = "n"%char)
          then String LF (replace_escapes s'')
          else if bool_decide (c = BACKSLASH) && bool_decide (d = "r"%char)
          then String CR (replace_escapes s'')
          else if bool_decide (c = BACKSLASH) && bool_decide (d = "t"%char)
          then String TAB (replace_escapes s'')
          else String c (replace_escapes s')
      end
  end.

(** The text with every leading and every trailing byte that satisfies
    [f] removed: [drop_front] removes the leading ones, and the trailing
    ones are the leading ones of the reversed text. *)
Fixpoint drop_front (f : ascii → bool) (l : list ascii) : list ascii :=
  match l with
  | [] => []
  | c :: l' => if f c then drop_front f l' else l
  end.

Definition drop_end (f : ascii → bool) (l : list ascii) : list ascii :=
  reverse (drop_front f (reverse l)).

Definition strip_ends (f : ascii → bool) (s : string) : string :=
  String.string_of_list_ascii (drop_end f (drop_front f (chars s))).

(** One substitution of the specification's list: backslash followed by
    [x] becomes [y]. *)
Definition esc (x y : ascii) (s : string) : string :=
  ReplaceAll s (String BACKSLASH (String x EmptyString)) (str y).

Definition is_quote (c : ascii) : bool := bool_decide (c = QUOTE).
Definition is_bracket (c : ascii) : bool :=
  bool_decide (c = "["%char) || bool_decide (c = "]"%char).

(** The Escape Transformer of the specification. *)
Definition escape_transform (value : string) : string :=
  strip_ends is_quote (replace_escapes value).

(** The header name as the specification words it: leading [[] and
    trailing []] removed. *)
Definition strip_open_close (line : string) : string :=
  TrimRight (TrimLeft line "[") "]".

(** Where [parseKeyValue] files a key: in the global keys when there is no
    current section, in that section otherwise. *)
Definition stored (currentSection key : string) (p : Parser) : option string :=
  if bool_decide (currentSection = "") then globalKeys p !! key
  else data p !! currentSection ≫= (λ sectionData, sectionData !! key).

(** The key and value that a well-formed assignment line writes. *)
Definition assignment (text : string) : option (string * string) :=
  let line := TrimSpace text in
  if is_skipped line || is_header line then None
  else match SplitN line "=" 2 with
       | [part0; part1] => Some (TrimSpace part0, unescape (TrimSpace part1))
       | _ => None
       end.

Definition write_all (kvs : list (string * string)) (m : gmap string string)
    : gmap string string :=
  foldl (λ m kv, <[kv.1 := kv.2]> m) m kvs.

(** A line that neither is nor hides a header. *)
Definition no_header (text : string) : bool :=
  match header_name text with Some _ => false | None => true end.

(** The text [ToString] writes for one section. *)
Definition section_text (range : gmap string string → list (string * string))
    (p : Parser) (name : string) : string :=
  let sectionData := default ∅ (data p !! name) in
  header_line name +:+
  concat_strings ((λ key, entry_line key (default "" (sectionData !! key)))
                    <$> sort_Strings ((range sectionData).*1)).

(** All the lines that a sequence of passes gets through. *)
Definition lines_read_all (scanners : list Scanner) : list string :=
  concat ((λ sc, lines_read (tokens sc)) <$> scanners).

(** The section sequence and the section mapping name the same sections. *)
Definition sections_mapped (p : Parser) : Prop :=
  ∀ name, name ∈ sections p ↔ is_Some (data p !! name).

(** Strictly ascending order of keys. *)
Definition ascending (ks : list string) : Prop := Sorted (strict String.le) ks.

(** What the serializer is to emit for section [name]: the header line,
    then the entries of the section, each once, as [key=value] lines in
    ascending order of the keys. *)
Definition is_section_block (p : Parser) (name block : string) : Prop :=
  let sectionData := default ∅ (data p !! name) in
  ∃ kvs : list (string * string),
    ascending kvs.*1 ∧
    (∀ k v, (k, v) ∈ kvs ↔ sectionData !! k = Some v) ∧
    block = header_line name +:+ concat_strings ((λ kv, entry_line kv.1 kv.2) <$> kvs).

(** *** The parse loop as a fold

    The state of the loop is the current section and the document.  A
    pass over accepted lines is the fold of [line_step]; the first line
    that is not accepted decides the error. *)

Definition write (currentSection key value : string) (p : Parser) : Parser :=
  if bool_decide (currentSection = "") then
    mkParser (data p) (<[key := value]> (globalKeys p)) (sections p)
  else
    mkParser (<[currentSection := <[key := value]> (default ∅ (data p !! currentSection))]> (data p))
             (globalKeys p) (sections p).

Definition line_step (st : string * Parser) (text : string) : string * Parser :=
  match header_name text, assignment text with
  | Some name, _ => (name, createSectionIfNotExist name st.2)
  | None, Some (key, value) => (st.1, write st.1 key value st.2)
  | None, None => st
  end.

Definition line_steps (st : string * Parser) (toks : list string) : string * Parser :=
  foldl line_step st toks.

(** The error [parseKeyValue] reports for a line that is not well formed. *)
Definition line_error (lineNumber : Z) (line : string) : error :=
  match SplitN line "=" 2 with
  | [part0; _] =>
      if bool_decide (TrimSpace part0 = "") then EmptyKey lineNumber line
      else EmptyValue lineNumber line
  | _ => InvalidKeyValuePair lineNumber line
  end.

Fixpoint first_error (toks : list string) (lineNumber : Z) : option error :=
  match toks with
  | [] => None
  | text :: toks' =>
      if accepted text then first_error toks' (incr lineNumber)
      else Some (line_error (incr lineNumber) (TrimSpace text))
  end.

(** The loop never meets a missing section: the current section is none
    or a section of the document. *)
Definition current_ok (st : string * Parser) : Prop :=
  st.1 = "" ∨ is_Some (data st.2 !! st.1).


(** ** Vocabulary of the further properties *)

(** One call on a document: [Set] or a parse pass. *)
Inductive operation : Type :=
  | opSet (section key value : string)
  | opParse (scanner : Scanner).

(** A sequence of calls on one document, in order. *)
Fixpoint run (ops : list operation) (p : Parser) : outcome () :=
  match ops with
  | [] => Returned () p
  | opSet section key value :: ops' => run ops' (Set_ section key value p)
  | opParse scanner :: ops' =>
      match parse scanner p with
      | Returned _ p' => run ops' p'
      | Panicked => Panicked
      end
  end.

(** The keys of a document: a section with its key; what [Get] finds. *)
Definition has_key (section key : string) (p : Parser) : Prop :=
  ∃ m, data p !! section = Some m ∧ is_Some (m !! key).

(** A byte that is printable ASCII: neither white space, nor a control
    character, nor part of a multi-byte rune. *)
Definition graphic (c : ascii) : bool :=
  (32 <? N_of_ascii c)%N && (N_of_ascii c <? 127)%N.

(** The first and the last byte of a text, if it has any. *)
Definition first_byte (s : string) : option ascii := head (chars s).
Definition last_byte (s : string) : option ascii := last (chars s).

(** A text that [TrimSpace] has nothing to take from: it is not empty and
    starts and ends with a graphic byte. *)
Definition trimmed (s : string) : Prop :=
  (∃ c, first_byte s = Some c ∧ graphic c = true) ∧
  (∃ c, last_byte s = Some c ∧ graphic c = true).

(** The text whose lines are [lines], each ended by a newline. *)
Definition unlines (lines : list string) : string :=
  concat_strings ((λ l, l +:+ str LF) <$> lines).


(** Nothing of [p] is lost in [q]: the section sequence of [p] starts that
    of [q], and every section, every key of a section and every global
    key of [p] is still there in [q]. *)
Definition extends (p q : Parser) : Prop :=
  sections p `prefix_of` sections q ∧
  (∀ s, is_Some (data p !! s) → is_Some (data q !! s)) ∧
  (∀ s k, has_key s k p → has_key s k q) ∧
  (∀ k, is_Some (globalKeys p !! k) → is_Some (globalKeys q !! k)).

(** The three reasons of a syntax error. *)
Definition reasons : list string :=
  ["invalid key-value pair"; "key cannot be empty"; "value cannot be empty"].

(** A line as [bufio.ScanLines] hands it on unchanged: it has no newline
    in it, does not end in a carriage return and fits the buffer. *)
Definition scannable (l : string) : Prop :=
  (LF ∉ chars l) ∧ last_byte l ≠ Some CR ∧ fits l = true.

(** *** Documents that survive serialization

    A key, a value and a section name that come back from the text
    [ToString] writes for them exactly as they are. *)

Definition entry_text (kv : string * string) : string := kv.1 +:+ "=" +:+ kv.2.
Definition header_text (name : string) : string := "[" +:+ name +:+ "]".

Definition plain_key (k : string) : Prop :=
  trimmed k ∧ ("="%char ∉ chars k) ∧ (LF ∉ chars k) ∧
  first_byte k ≠ Some ";"%char ∧ first_byte k ≠ Some "#"%char ∧
  first_byte k ≠ Some "["%char.

Definition plain_value (v : string) : Prop :=
  trimmed v ∧ (LF ∉ chars v) ∧ (BACKSLASH ∉ chars v) ∧
  first_byte v ≠ Some QUOTE ∧ last_byte v ≠ Some QUOTE.

Definition plain_entry (kv : string * string) : Prop :=
  plain_key kv.1 ∧ plain_value kv.2 ∧ fits (entry_text kv) = true.

Definition plain_name (name : string) : Prop :=
  name ≠ "" ∧ (LF ∉ chars name) ∧
  (∀ c, first_byte name = Some c → is_bracket c = false) ∧
  (∀ c, last_byte name = Some c → is_bracket c = false) ∧
  fits (header_text name) = true.

Definition plain_document (p : Parser) : Prop :=
  NoDup (sections p) ∧ sections_mapped p ∧
  (∀ k v, globalKeys p !! k = Some v → plain_entry (k, v)) ∧
  (∀ name m, data p !! name = Some m →
     plain_name name ∧ ∀ k v, m !! k = Some v → plain_entry (k, v)).

(** The entries [ToString] writes for a section, in its order. *)
Definition sorted_entries (range : gmap string string → list (string * string))
    (m : gmap string string) : list (string * string) :=
  (λ key, (key, default "" (m !! key))) <$> sort_Strings ((range m).*1).

(** The lines of the text of [ToString]. *)
Definition section_lines (range : gmap string string → list (string * string))
    (p : Parser) (name : string) : list string :=
  header_text name :: (entry_text <$> sorted_entries range (default ∅ (data p !! name))).

Definition document_lines (range : gmap string string → list (string * string))
    (p : Parser) : list string :=
  (entry_text <$> range (globalKeys p)) ++ concat (section_lines range p <$> sections p).

(** No key of the document, global or of a section, is the empty string. *)
Definition keys_nonempty (p : Parser) : Prop :=
  globalKeys p !! "" = None ∧ ∀ s m, data p !! s = Some m → m !! "" = None.

(** Neither end of the text is a bracket. *)
Definition no_bracket_at_ends (name : string) : Prop :=
  (∀ c, first_byte name = Some c → is_bracket c = false) ∧
  (∀ c, last_byte name = Some c → is_bracket c = false).
(** ** The string functions on examples *)

Example TrimSpace_ex1 : TrimSpace (" 	key = v  " +:+ str CR) = "key = v".
Proof. reflexivity. Qed.

Example TrimSpace_nbsp :
  TrimSpace (String.string_of_list_ascii (EncodeRune 160 ++ EncodeRune 8232)
             +:+ "a b" +:+ String.string_of_list_ascii (EncodeRune 12288)) = "a b".
Proof. reflexivity. Qed.

Example TrimSpace_broken_utf8 :
  TrimSpace (String (byte 128) (String (byte 168) " x ")) =
  String (byte 128) (String (byte 168) " x").
Proof. reflexivity. Qed.

Example Trim_ex1 : Trim "[[a]b]]" "[]" = "a]b".
Proof. reflexivity. Qed.

Example SplitN_ex1 : SplitN "a=b=c" "=" 2 = ["a"; "b=c"].
Proof. reflexivity. Qed.

Example SplitN_ex2 : SplitN "abc" "=" 2 = ["abc"].
Proof. reflexivity. Qed.

Example HasSuffix_ex1 : HasSuffix "[a]" "]" = true ∧ HasSuffix "[a" "]" = false.
Proof. split; reflexivity. Qed.

Example ReplaceAll_ex1 : ReplaceAll "a\nb\\n" "\n" (str LF) =
  "a" +:+ str LF +:+ "b\" +:+ str LF.
Proof. reflexivity. Qed.

Example itoa_ex1 : itoa 0 = "0" ∧ itoa 42 = "42".
Proof. split; reflexivity. Qed.

(** ** Lemmas on strings *)

Lemma append_nil_r (s : string) : s +:+ "" = s.
Proof. induction s as [|c s IH]; [done|]. by rewrite /String.app /= -/String.append IH. Qed.

Lemma append_assoc (s1 s2 s3 : string) : (s1 +:+ s2) +:+ s3 = s1 +:+ s2 +:+ s3.
Proof.
  induction s1 as [|c s1 IH]; [done|].
  by rewrite /String.app /= -/String.append IH.
Qed.

Lemma append_cons (c : ascii) (s1 s2 : string) : String c s1 +:+ s2 = String c (s1 +:+ s2).
Proof. done. Qed.

Lemma chars_append (s1 s2 : string) : chars (s1 +:+ s2) = chars s1 ++ chars s2.
Proof. induction s1 as [|c s1 IH]; [done|]. by rewrite append_cons /= -/(chars _) IH. Qed.

Lemma chars_inj (s1 s2 : string) : chars s1 = chars s2 → s1 = s2.
Proof.
  intros H. rewrite -(String.string_of_list_ascii_of_string s1).
  rewrite -(String.string_of_list_ascii_of_string s2). by rewrite -/(chars _) H.
Qed.

Lemma HasPrefix_cons (s : string) (c : ascii) :
  HasPrefix s (str c) = true ↔ ∃ s', s = String c s'.
Proof.
  destruct s as [|b s]; simpl; [split; [done|by intros [? ?]]|].
  rewrite andb_true_r bool_decide_eq_true. split.
  - intros ->. by eexists.
  - intros [s' [= -> _]]. done.
Qed.

Lemma header_not_skipped (line : string) : is_header line = true → is_skipped line = false.
Proof.
  rewrite /is_header /is_skipped. intros [Hp _]%andb_true_iff.
  apply (HasPrefix_cons line "[") in Hp as [s' ->]. done.
Qed.

(** ** The parse loop is the fold *)

Lemma SplitN_2 (line : string) :
  SplitN line "=" 2 =
  match Cut line "=" with Some (a, b) => [a; b] | None => [line] end.
Proof. rewrite /=. by destruct (Cut line "=") as [[a b]|]. Qed.

Lemma createSectionIfNotExist_lookup (name : string) (p : Parser) :
  is_Some (data (createSectionIfNotExist name p) !! name).
Proof.
  rewrite /createSectionIfNotExist. destruct (data p !! name) eqn:E.
  - by rewrite E.
  - by rewrite /= lookup_insert_eq.
Qed.

Lemma createSectionIfNotExist_existing (name : string) (p : Parser) :
  is_Some (data p !! name) → createSectionIfNotExist name p = p.
Proof. intros [m Hm]. by rewrite /createSectionIfNotExist Hm. Qed.

Lemma parseKeyValue_ill_formed (line : string) (n : Z) (cur : string) (p : Parser) :
  well_formed line = false →
  parseKeyValue line n cur p = Returned (Some (line_error n line)) p.
Proof.
  rewrite /well_formed /parseKeyValue /line_error SplitN_2.
  destruct (Cut line "=") as [[a b]|]; [|done].
  destruct (bool_decide (TrimSpace a = "")); [done|].
  by destruct (bool_decide (TrimSpace b = "")).
Qed.

Lemma parseKeyValue_well_formed (line : string) (n : Z) (st : string * Parser) :
  well_formed line = true → current_ok st →
  ∃ a b, Cut line "=" = Some (a, b) ∧ TrimSpace a ≠ "" ∧ TrimSpace b ≠ "" ∧
    parseKeyValue line n st.1 st.2 =
    Returned None (write st.1 (TrimSpace a) (unescape (TrimSpace b)) st.2).
Proof.
  rewrite /well_formed /parseKeyValue /write SplitN_2. intros Hwf Hok.
  destruct (Cut line "=") as [[a b]|]; [|done].
  exists a, b.
  destruct (bool_decide_reflect (TrimSpace a = "")); [done|].
  destruct (bool_decide_reflect (TrimSpace b = "")); [done|].
  do 3 (split; [done|]).
  destruct (bool_decide_reflect (st.1 = "")) as [|Hne]; [done|].
  destruct Hok as [|[m Hm]]; [done|]. by rewrite Hm.
Qed.

Lemma line_step_ok (st : string * Parser) (text : string) :
  current_ok st → current_ok (line_step st text).
Proof.
  intros Hok. rewrite /line_step.
  destruct (header_name text) as [name|].
  { right. apply createSectionIfNotExist_lookup. }
  destruct (assignment text) as [[k v]|]; [|done].
  rewrite /write /current_ok /=.
  destruct (bool_decide_reflect (st.1 = "")) as [|Hne]; [by left|]. right.
  by rewrite /= lookup_insert_eq.
Qed.

Lemma line_steps_ok (toks : list string) (st : string * Parser) :
  current_ok st → current_ok (line_steps st toks).
Proof.
  revert st. induction toks as [|text toks IH]; intros st Hok; [done|].
  apply IH. by apply line_step_ok.
Qed.

Lemma parse_loop_fold (final : option error) (toks : list string)
    (st : string * Parser) (n : Z) :
  current_ok st →
  parse_loop final toks st.1 n st.2 =
  Returned (match first_error toks n with Some e => Some e | None => final end)
           (line_steps st (lines_read toks)).2.
Proof.
  revert st n. induction toks as [|text toks IH]; intros [cur p] n Hok; [done|].
  rewrite /= /accepted /line_steps.
  destruct (is_skipped (TrimSpace text)) eqn:Hskip.
  { rewrite /= (IH (cur, p)) //.
    by rewrite /line_step /header_name /assignment Hskip. }
  destruct (is_header (TrimSpace text)) eqn:Hhdr.
  { rewrite /= /bind /exec.
    rewrite (IH (Trim (TrimSpace text) "[]", createSectionIfNotExist _ p)).
    { right. apply createSectionIfNotExist_lookup. }
    by rewrite /line_step /header_name Hskip Hhdr. }
  destruct (well_formed (TrimSpace text)) eqn:Hwf; rewrite /= /bind.
  - destruct (parseKeyValue_well_formed _ (incr n) (cur, p) Hwf Hok)
      as (a & b & Hcut & _ & _ & Hkv).
    cbn [fst snd] in Hkv. rewrite Hkv.
    rewrite (IH (cur, write cur (TrimSpace a) (unescape (TrimSpace b)) p)).
    { apply (line_step_ok (cur, p) text) in Hok.
      move: Hok. by rewrite /line_step /header_name /assignment Hskip Hhdr
        SplitN_2 Hcut. }
    by rewrite /line_step /header_name /assignment Hskip Hhdr SplitN_2 Hcut.
  - by rewrite parseKeyValue_ill_formed.
Qed.

Lemma parse_fold (sc : Scanner) (p : Parser) :
  parse sc p =
  Returned (match first_error (tokens sc) 0 with Some e => Some e | None => Err sc end)
           (line_steps ("", p) (lines_read (tokens sc))).2.
Proof. apply (parse_loop_fold _ _ ("", p)). by left. Qed.

Lemma lines_read_idemp (toks : list string) : lines_read (lines_read toks) = lines_read toks.
Proof.
  induction toks as [|t toks IH]; [done|].
  rewrite /=. destruct (accepted t) eqn:E; [|done]. by rewrite /= E IH.
Qed.

Lemma first_error_lines_read (toks : list string) (n : Z) :
  first_error (lines_read toks) n = None.
Proof.
  revert n. induction toks as [|t toks IH]; intros n; [done|].
  rewrite /=. destruct (accepted t) eqn:E; [|done]. by rewrite /= E IH.
Qed.

Lemma lines_read_prefix (toks : list string) :
  ∃ rest, toks = lines_read toks ++ rest ∧
    (first_error toks 0 = None → rest = []) .
Proof.
  assert (∀ n, ∃ rest, toks = lines_read toks ++ rest ∧
    (first_error toks n = None → rest = [])) as H; [|apply (H 0%Z)].
  induction toks as [|t toks IH]; intros n; [by exists []|].
  rewrite /=. destruct (accepted t) eqn:E.
  - destruct (IH (incr n)) as (rest & Heq & Hnone). exists rest. split; [|done].
    by rewrite /= -Heq.
  - by exists (t :: toks).
Qed.

(** ** Accessors *)

Lemma Get_found_iff_section (section key : string) (p : Parser) :
  Get section key p =
  (default "" (data p !! section ≫= (λ m, m !! key)),
   bool_decide (is_Some (data p !! section))).
Proof.
  rewrite /Get. by destruct (data p !! section) as [m|].
Qed.

(** C1, on the code: a document read from a section [section1] that has
    the single key [key1] answers [Get("section1", "key3")] with the
    empty string and [found = true], although [key3] does not exist in
    the section. *)
Theorem C1_Get_missing_key_found :
  ∃ p m,
    LoadFromString ("[section1]" +:+ str LF +:+ "key1=value1" +:+ str LF) NewParser
      = Returned None p ∧
    data p !! "section1" = Some m ∧ m !! "key3" = None ∧
    Get "section1" "key3" p = ("", true).
Proof.
  eexists _, _. split; [vm_compute; reflexivity|].
  split; [vm_compute; reflexivity|]. split; reflexivity.
Qed.

Lemma Set_sections (section key value : string) (p : Parser) :
  sections (Set_ section key value p) = sections p ++ [section].
Proof. done. Qed.

(** C3: every call of [Set] appends the section name to the ordered
    sequence, whether or not the name is already there; [n] calls against
    one section add [n] copies, so a fresh document lists exactly [n]. *)
Theorem C3_Set_appends_section_name (s : string) (p : Parser)
    (kvs : list (string * string)) :
  (∀ key value, GetSectionNames (Set_ s key value p) = GetSectionNames p ++ [s]) ∧
  GetSectionNames (foldl (λ q kv, Set_ s kv.1 kv.2 q) p kvs)
    = GetSectionNames p ++ replicate (length kvs) s ∧
  GetSectionNames (foldl (λ q kv, Set_ s kv.1 kv.2 q) NewParser kvs)
    = replicate (length kvs) s.
Proof.
  assert (∀ q, sections (foldl (λ q kv, Set_ s kv.1 kv.2 q) q kvs)
               = sections q ++ replicate (length kvs) s) as H.
  { induction kvs as [|kv kvs IH]; intros q; [by rewrite /= app_nil_r|].
    by rewrite /= IH Set_sections -app_assoc. }
  split; [done|]. split; [apply H|]. by rewrite /GetSectionNames H.
Qed.

(** ** Failed passes *)

Lemma parse_lines_read (sc : Scanner) (p : Parser) :
  parse (mkScanner (lines_read (tokens sc)) None) p =
  Returned None (line_steps ("", p) (lines_read (tokens sc))).2.
Proof. by rewrite parse_fold /= first_error_lines_read lines_read_idemp. Qed.

(** C2, as the code has it: a pass that fails is not rolled back.  The
    document it leaves is the one a successful pass over the lines before
    the first rejected line gives (all the lines, when the failure is the
    scanner's own), and [LoadFromString] and [ParseFile] hand that
    document on with the error wrapped. *)
Theorem C2_failed_pass_keeps_lines_read (sc : Scanner) (p p' : Parser) (e : error) :
  parse sc p = Returned (Some e) p' →
  let read := lines_read (tokens sc) in
  (∃ rest, tokens sc = read ++ rest) ∧
  parse (mkScanner read None) p = Returned None p' ∧
  (∀ text, sc = NewScanner text →
     LoadFromString text p =
     Returned (Some (Errorf_w "failed to parse input string" e)) p') ∧
  (∀ os_Open filePath, Ext filePath = ".ini" → os_Open filePath = inr sc →
     ParseFile os_Open filePath p =
     Returned (Some (Errorf_w "failed to parse file" e)) p').
Proof.
  intros Hparse read. split; [|split; [|split]].
  - destruct (lines_read_prefix (tokens sc)) as (rest & Heq & _). by exists rest.
  - rewrite parse_lines_read. move: Hparse. rewrite parse_fold. by intros [= _ ->].
  - intros text ->. by rewrite /LoadFromString /bind Hparse.
  - intros os_Open filePath Hext Hopen.
    rewrite /ParseFile Hext bool_decide_eq_false_2; [by intros H|].
    by rewrite Hopen /bind Hparse.
Qed.

Lemma C2_failed_pass_witness :
  let sc := mkScanner ["[a]"; "k=v"; "key"; "[b]"] None in
  let p' := mkParser {["a" := {["k" := "v"]}]} ∅ ["a"] in
  parse (mkScanner ["[a]"; "k=v"] None) NewParser = Returned None p'.
Proof.
  intros sc p'.
  apply (C2_failed_pass_keeps_lines_read sc NewParser p'
           (errorString "line 3: invalid key-value pair: key")).
  vm_compute. reflexivity.
Defined.

(** C2 as stated fails: [LoadFromString] of a header followed by a line
    without [=] returns an error and leaves the new section behind. *)
Lemma C2_counterexample :
  ¬ (∀ text p e p', LoadFromString text p = Returned (Some e) p' → p' = p).
Proof.
  intros H.
  specialize (H ("[a]" +:+ str LF +:+ "key") NewParser
                (Errorf_w "failed to parse input string"
                   (errorString "line 2: invalid key-value pair: key"))
                (mkParser {["a" := ∅]} ∅ ["a"])).
  assert (sections (mkParser {["a" := ∅]} ∅ ["a"]) = sections NewParser) as Hs.
  { f_equal. apply H. vm_compute. reflexivity. }
  discriminate Hs.
Qed.

(** ** Assignment lines *)

Lemma Cut_first (lhs rhs : string) :
  "="%char ∉ chars lhs → Cut (lhs +:+ "=" +:+ rhs) "=" = Some (lhs, rhs).
Proof.
  induction lhs as [|c lhs IH]; intros Hnot; [done|].
  rewrite append_cons /=. rewrite /chars /= -/(chars lhs) in Hnot.
  apply not_elem_of_cons in Hnot as [Hc Hl].
  rewrite bool_decide_eq_false_2; [done|]. by rewrite IH.
Qed.

Lemma Cut_Some (line lhs rhs : string) :
  Cut line "=" = Some (lhs, rhs) → line = lhs +:+ "=" +:+ rhs ∧ "="%char ∉ chars lhs.
Proof.
  revert lhs. induction line as [|c line IH]; intros lhs; [done|].
  rewrite /=. case_bool_decide as Hc.
  - intros [= <- <-]. split; [by rewrite Hc|]. apply not_elem_of_nil.
  - destruct (Cut line "=") as [[a b]|]; [|done]. intros [= <- <-].
    destruct (IH a eq_refl) as [-> Hnot]. split; [done|].
    rewrite /chars /= -/(chars a). by apply not_elem_of_cons.
Qed.

Lemma Cut_None (line : string) : "="%char ∉ chars line → Cut line "=" = None.
Proof.
  induction line as [|c line IH]; [done|].
  rewrite /chars /= -/(chars line). intros [Hc Hl]%not_elem_of_cons.
  rewrite bool_decide_eq_false_2; [done|]. by rewrite IH.
Qed.

(** C7: on a line with an [=], split at the first one, an empty trimmed
    left side is an [EmptyKey] error whatever the right side is; with a
    key, an empty trimmed right side is an [EmptyValue] error.  The line
    [keyWithSeparatorButNoValue =] is of the second kind. *)
Theorem C7_empty_key_before_empty_value (lhs rhs : string) (lineNumber : Z)
    (currentSection : string) (p : Parser) :
  "="%char ∉ chars lhs →
  let line := lhs +:+ "=" +:+ rhs in
  (TrimSpace lhs = "" →
     parseKeyValue line lineNumber currentSection p =
     Returned (Some (errorString
       ("line " +:+ itoa lineNumber +:+ ": key cannot be empty: " +:+ line))) p) ∧
  (TrimSpace lhs ≠ "" → TrimSpace rhs = "" →
     parseKeyValue line lineNumber currentSection p =
     Returned (Some (errorString
       ("line " +:+ itoa lineNumber +:+ ": value cannot be empty: " +:+ line))) p) ∧
  parseKeyValue "keyWithSeparatorButNoValue =" 4 "section1" p =
    Returned (Some (errorString
      "line 4: value cannot be empty: keyWithSeparatorButNoValue =")) p.
Proof.
  intros Hnot line. rewrite /parseKeyValue SplitN_2 Cut_first //.
  split; [|split].
  - intros ->. done.
  - intros Hl ->. by rewrite bool_decide_eq_false_2.
  - done.
Qed.

Lemma C7_empty_key_witness :
  parseKeyValue " = valueWithoutKey" 5 "section1" NewParser =
  Returned (Some (errorString "line 5: key cannot be empty:  = valueWithoutKey"))
           NewParser.
Proof.
  apply (C7_empty_key_before_empty_value " " " valueWithoutKey" 5 "section1" NewParser).
  - vm_compute. by intros H%list_elem_of_In; destruct H as [|[]].
  - reflexivity.
Defined.

(** ** Line numbers *)

Lemma incr_of_nat (k : nat) : (Z.of_nat k < MaxInt)%Z → incr (Z.of_nat k) = Z.of_nat (S k).
Proof.
  intros H. rewrite /incr bool_decide_eq_false_2; lia.
Qed.

Lemma first_error_app (pre toks : list string) (k : nat) :
  forallb accepted pre = true →
  (Z.of_nat (k + length pre) ≤ MaxInt)%Z →
  first_error (pre ++ toks) (Z.of_nat k) = first_error toks (Z.of_nat (k + length pre)).
Proof.
  revert k. induction pre as [|t pre IH]; intros k Hacc Hlen.
  { by rewrite /= Nat.add_0_r. }
  rewrite /= in Hacc. apply andb_true_iff in Hacc as [Ht Hacc].
  rewrite length_cons in Hlen.
  rewrite /= Ht incr_of_nat; [lia|]. rewrite IH //; [lia|]. do 2 f_equal. lia.
Qed.

Lemma first_error_rejected (pre post : list string) (text : string) (n : Z) :
  accepted text = false → is_Some (first_error (pre ++ text :: post) n).
Proof.
  intros Hrej. revert n. induction pre as [|t pre IH]; intros n.
  - by rewrite /= Hrej.
  - rewrite /=. by destruct (accepted t).
Qed.

(** C8: a line that is not blank, not a comment, not bracket-delimited
    and has no [=] makes the pass fail.  When no earlier line is rejected
    the error is [InvalidKeyValuePair] for that line, and its number is
    the position of the line among all lines of the input, blank and
    comment lines included, counted from 1 (lines beyond [MaxInt] cannot
    be numbered by an [int]). *)
Theorem C8_line_without_separator (sc : Scanner) (pre post : list string)
    (text : string) (p : Parser) :
  let line := TrimSpace text in
  tokens sc = pre ++ text :: post →
  is_skipped line = false → is_header line = false → "="%char ∉ chars line →
  (∃ e p', parse sc p = Returned (Some e) p') ∧
  (forallb accepted pre = true → (Z.of_nat (length pre) < MaxInt)%Z →
   ∃ p', parse sc p =
     Returned (Some (errorString
       ("line " +:+ itoa (Z.of_nat (length pre) + 1) +:+
        ": invalid key-value pair: " +:+ line))) p').
Proof.
  intros line Htoks Hskip Hhdr Hnot.
  assert (SplitN line "=" 2 = [line]) as Hsplit.
  { by rewrite SplitN_2 Cut_None. }
  assert (accepted text = false) as Hrej.
  { by rewrite /accepted -/line Hskip Hhdr /well_formed Hsplit. }
  rewrite parse_fold Htoks. split.
  - destruct (first_error_rejected pre post text 0 Hrej) as [e ->]. by eexists _, _.
  - intros Hacc Hlen. rewrite (first_error_app pre _ 0) //=; [lia|].
    rewrite Hrej incr_of_nat //. eexists. do 3 f_equal.
    rewrite /line_error -/line Hsplit /InvalidKeyValuePair /Errorf_line.
    by rewrite Nat2Z.inj_succ -Z.add_1_r.
Qed.

Lemma C8_unterminated_header_witness :
  ∃ p', parse (mkScanner [""; "[section1"; "key1=value1"] None) NewParser =
    Returned (Some (errorString "line 2: invalid key-value pair: [section1")) p'.
Proof.
  destruct (C8_line_without_separator
              (mkScanner [""; "[section1"; "key1=value1"] None)
              [""] ["key1=value1"] "[section1" NewParser) as [_ H].
  - reflexivity.
  - reflexivity.
  - reflexivity.
  - vm_compute. intros H%list_elem_of_In. repeat destruct H as [H|H]; try done.
  - apply H; [reflexivity|]. rewrite /MaxInt /=. lia.
Defined.

(** ** The empty section name *)

Lemma header_name_Some (text name : string) :
  header_name text = Some name →
  is_skipped (TrimSpace text) = false ∧ is_header (TrimSpace text) = true ∧
  name = Trim (TrimSpace text) "[]".
Proof.
  rewrite /header_name. destruct (is_skipped _); [done|].
  destruct (is_header _); [|done]. by intros [= <-].
Qed.

Lemma lines_read_forallb (f : string → bool) (toks : list string) :
  forallb f toks = true → forallb f (lines_read toks) = true.
Proof.
  induction toks as [|t toks IH]; [done|].
  rewrite /=. intros [Ht Htoks]%andb_true_iff.
  destruct (accepted t); [|done]. by rewrite /= Ht IH.
Qed.

Lemma line_steps_no_section (toks : list string) (q : Parser) :
  forallb no_header toks = true →
  line_steps ("", q) toks =
  ("", mkParser (data q) (write_all (omap assignment toks) (globalKeys q)) (sections q)).
Proof.
  revert q. induction toks as [|t toks IH]; intros q; [by destruct q|].
  rewrite /=. intros [Ht Htoks]%andb_true_iff. move: Ht.
  rewrite /line_steps /= /line_step /no_header.
  destruct (header_name t); [done|]. intros _.
  destruct (assignment t) as [[k v]|]; rewrite /=.
  - by rewrite -/(line_steps _ toks) IH.
  - by rewrite -/(line_steps _ toks) IH.
Qed.

(** C10: a header whose stripped name is empty registers the section
    named by the empty string (unless the document has it already), and
    since the empty string is also the loop's mark for "no section", the
    assignments that follow, up to the next header, are written to the
    global keys; the sections of the document, the empty-named one
    included, are as the header left them. *)
Theorem C10_empty_section_name (final : option error) (text : string)
    (rest : list string) (currentSection : string) (lineNumber : Z) (p : Parser) :
  header_name text = Some "" →
  forallb no_header rest = true →
  ∃ e p',
    parse_loop final (text :: rest) currentSection lineNumber p = Returned e p' ∧
    sections p' = sections (createSectionIfNotExist "" p) ∧
    data p' = data (createSectionIfNotExist "" p) ∧
    is_Some (data p' !! "") ∧
    (data p !! "" = None →
       sections p' = sections p ++ [""] ∧ data p' !! "" = Some ∅) ∧
    globalKeys p' = write_all (omap assignment (lines_read rest)) (globalKeys p).
Proof.
  intros (Hskip & Hhdr & Hname)%header_name_Some Hrest.
  rewrite /= Hskip Hhdr -Hname /bind /exec.
  rewrite (parse_loop_fold final rest ("", createSectionIfNotExist "" p)); [by left|].
  rewrite line_steps_no_section; [by apply lines_read_forallb|].
  eexists _, _. split; [done|]. rewrite /=.
  split; [done|]. split; [done|]. split; [apply createSectionIfNotExist_lookup|].
  split.
  - intros Hnone. rewrite /createSectionIfNotExist Hnone /=.
    by rewrite lookup_insert_eq.
  - rewrite /createSectionIfNotExist. by destruct (data p !! "").
Qed.

Lemma C10_empty_section_name_witness :
  ∃ e p',
    parse (mkScanner ["[s]"; "a=1"; "[]"; "k=v"; "; note"; "a=2"] None) NewParser
      = Returned e p' ∧
    data p' !! "" = Some ∅ ∧
    globalKeys p' = {["k" := "v"; "a" := "2"]}.
Proof.
  destruct (C10_empty_section_name None "[]" ["k=v"; "; note"; "a=2"] "s" 2
              (mkParser {["s" := {["a" := "1"]}]} ∅ ["s"]))
    as (e & p' & Hrun & _ & _ & _ & Hnew & Hglobal); [reflexivity..|].
  exists e, p'. split; [exact Hrun|]. split.
  - apply Hnew. reflexivity.
  - rewrite Hglobal. vm_compute. reflexivity.
Defined.

(** ** [Trim] strips both ends *)

Lemma drop_front_ext (f g : ascii → bool) (l : list ascii) :
  (∀ c, f c = g c) → drop_front f l = drop_front g l.
Proof. intros H. induction l as [|c l IH]; [done|]. by rewrite /= H IH. Qed.

Lemma drop_front_app (f : ascii → bool) (l1 l2 : list ascii) :
  drop_front f (l1 ++ l2) =
  match drop_front f l1 with
  | [] => drop_front f l2
  | d => d ++ l2
  end.
Proof.
  induction l1 as [|c l1 IH]; [by rewrite /=; destruct (drop_front f l2)|].
  rewrite /=. by destruct (f c).
Qed.

Lemma drop_end_cons (f : ascii → bool) (c : ascii) (l : list ascii) :
  drop_end f (c :: l) =
  match drop_end f l with
  | [] => if f c then [] else [c]
  | r => c :: r
  end.
Proof.
  rewrite /drop_end reverse_cons drop_front_app.
  destruct (drop_front f (reverse l)) as [|d ds] eqn:E.
  - rewrite /=. by destruct (f c).
  - rewrite reverse_app reverse_singleton /=.
    destruct (reverse (d :: ds)) eqn:E2; [|done].
    apply (f_equal reverse) in E2. by rewrite reverse_involutive in E2.
Qed.

Lemma chars_TrimLeft (s cutset : string) :
  chars (TrimLeft s cutset) = drop_front (λ c, in_cutset c cutset) (chars s).
Proof.
  induction s as [|c s IH]; [done|].
  rewrite /chars /= -/(chars _). by destruct (in_cutset c cutset).
Qed.

Lemma chars_TrimRight (s cutset : string) :
  chars (TrimRight s cutset) = drop_end (λ c, in_cutset c cutset) (chars s).
Proof.
  induction s as [|c s IH]; [done|].
  rewrite /chars /= -/(chars _) drop_end_cons -IH.
  destruct (TrimRight s cutset) as [|d r]; [|done].
  rewrite /=. by destruct (in_cutset c cutset).
Qed.

Lemma Trim_strip_ends (s cutset : string) :
  Trim s cutset = strip_ends (λ c, in_cutset c cutset) s.
Proof.
  apply chars_inj.
  rewrite /Trim /strip_ends chars_TrimRight chars_TrimLeft /chars.
  by rewrite String.list_ascii_of_string_of_list_ascii.
Qed.

Lemma strip_ends_ext (f g : ascii → bool) (s : string) :
  (∀ c, f c = g c) → strip_ends f s = strip_ends g s.
Proof.
  intros H. rewrite /strip_ends /drop_end.
  by rewrite (drop_front_ext f g (chars s)) // (drop_front_ext f g (reverse _)).
Qed.

Lemma Trim_brackets (line : string) : Trim line "[]" = strip_ends is_bracket line.
Proof.
  rewrite Trim_strip_ends. apply strip_ends_ext. intros c.
  by rewrite /is_bracket /= orb_false_r.
Qed.

Lemma Trim_quotes (value : string) : Trim value (str QUOTE) = strip_ends is_quote value.
Proof.
  rewrite Trim_strip_ends. apply strip_ends_ext. intros c.
  by rewrite /is_quote /= orb_false_r.
Qed.

(** C6, as the code has it: on a line that starts with [[] and ends with
    []] the loop takes as section name the line without its leading and
    trailing brackets of either kind, makes that name the current
    section and records it in the document if it is new. *)
Theorem C6_header_name_strips_brackets (final : option error) (text : string)
    (rest : list string) (currentSection : string) (lineNumber : Z) (p : Parser) :
  let line := TrimSpace text in
  let name := strip_ends is_bracket line in
  is_header line = true →
  parse_loop final (text :: rest) currentSection lineNumber p =
    parse_loop final rest name (incr lineNumber) (createSectionIfNotExist name p) ∧
  is_Some (data (createSectionIfNotExist name p) !! name) ∧
  (data p !! name = None →
     sections (createSectionIfNotExist name p) = sections p ++ [name]).
Proof.
  intros line name Hhdr.
  rewrite /= -/line (header_not_skipped line Hhdr) Hhdr Trim_brackets -/name.
  split; [done|]. split; [apply createSectionIfNotExist_lookup|].
  intros Hnone. by rewrite /createSectionIfNotExist Hnone.
Qed.

Lemma C6_header_name_witness :
  parse (mkScanner ["  [[]a[]] "] None) NewParser =
  Returned None (mkParser {["a" := ∅]} ∅ ["a"]).
Proof.
  pose proof (C6_header_name_strips_brackets None "  [[]a[]] " [] "" 0 NewParser) as H.
  destruct H as [H _]; [reflexivity|]. exact H.
Defined.

(** C6 as stated fails on [[]a]]: stripping the leading [[] and the
    trailing []] leaves []a], but the section recorded is [a]. *)
Lemma C6_counterexample :
  ¬ (∀ text p e p',
       is_header (TrimSpace text) = true →
       parse (mkScanner [text] None) p = Returned e p' →
       strip_open_close (TrimSpace text) ∈ sections p').
Proof.
  intros H.
  specialize (H "[]a]" NewParser None (mkParser {["a" := ∅]} ∅ ["a"])
                eq_refl eq_refl).
  apply list_elem_of_singleton in H. discriminate H.
Qed.

(** ** The three substitutions are one pass *)

Lemma HasPrefix_str (c z : ascii) (s : string) :
  HasPrefix (String c s) (str z) = bool_decide (z = c).
Proof. by rewrite /= andb_true_r. Qed.

Lemma esc_other (x y c : ascii) (s : string) :
  c ≠ BACKSLASH → esc x y (String c s) = String c (esc x y s).
Proof.
  intros Hc. rewrite /esc /ReplaceAll /=.
  by rewrite (bool_decide_eq_false_2 (BACKSLASH = c)).
Qed.

Lemma esc_hit (x y : ascii) (s : string) :
  esc x y (String BACKSLASH (String x s)) = String y (esc x y s).
Proof.
  rewrite /esc /ReplaceAll /=.
  by rewrite (bool_decide_eq_true_2 (x = x)).
Qed.

Lemma esc_miss (x y : ascii) (s : string) :
  HasPrefix s (str x) = false →
  esc x y (String BACKSLASH s) = String BACKSLASH (esc x y s).
Proof.
  destruct s as [|d s]; [done|]. rewrite HasPrefix_str. intros Hs.
  by rewrite /esc /ReplaceAll /= Hs.
Qed.

Lemma esc_head (x y z : ascii) (s : string) :
  z ≠ BACKSLASH → z ≠ y →
  HasPrefix (esc x y s) (str z) = HasPrefix s (str z).
Proof.
  intros Hz Hy. destruct s as [|c s]; [done|].
  destruct (decide (c = BACKSLASH)) as [->|Hc].
  - destruct (HasPrefix s (str x)) eqn:Hs.
    + apply HasPrefix_cons in Hs as [s' ->].
      by rewrite esc_hit !HasPrefix_str !bool_decide_eq_false_2.
    + by rewrite esc_miss // !HasPrefix_str.
  - by rewrite esc_other // !HasPrefix_str.
Qed.

Lemma replace_escapes_other (c : ascii) (s : string) :
  c ≠ BACKSLASH → replace_escapes (String c s) = String c (replace_escapes s).
Proof.
  intros Hc. destruct s as [|d s]; [done|].
  by rewrite /= (bool_decide_eq_false_2 (c = BACKSLASH)).
Qed.

Lemma replace_escapes_miss (s : string) :
  HasPrefix s "n" = false → HasPrefix s "r" = false → HasPrefix s "t" = false →
  replace_escapes (String BACKSLASH s) = String BACKSLASH (replace_escapes s).
Proof.
  destruct s as [|d s]; [done|]. rewrite !HasPrefix_str. intros Hn Hr Ht.
  rewrite /replace_escapes -/replace_escapes.
  rewrite (bool_decide_ext (d = "n"%char) ("n"%char = d)) // Hn.
  rewrite (bool_decide_ext (d = "r"%char) ("r"%char = d)) // Hr.
  rewrite (bool_decide_ext (d = "t"%char) ("t"%char = d)) // Ht.
  by rewrite !andb_false_r.
Qed.

Lemma escapes_one_pass (s : string) :
  esc "t" TAB (esc "r" CR (esc "n" LF s)) = replace_escapes s.
Proof.
  remember (String.length s) as k eqn:Hk.
  revert s Hk. induction (lt_wf k) as [k _ IH]. intros s ->.
  destruct s as [|c s]; [done|].
  destruct (decide (c = BACKSLASH)) as [->|Hc].
  2:{ rewrite !esc_other // replace_escapes_other //. f_equal.
      apply (IH (String.length s)); [simpl; lia|done]. }
  destruct (HasPrefix s "n") eqn:Hn.
  { apply HasPrefix_cons in Hn as [s' ->].
    rewrite esc_hit !esc_other //=. f_equal.
    apply (IH (String.length s')); [simpl; lia|done]. }
  rewrite (esc_miss "n") //.
  destruct (HasPrefix s "r") eqn:Hr.
  { apply HasPrefix_cons in Hr as [s' ->].
    rewrite (esc_other "n") // esc_hit esc_other //=. f_equal.
    apply (IH (String.length s')); [simpl; lia|done]. }
  rewrite (esc_miss "r"); [by rewrite esc_head|].
  destruct (HasPrefix s "t") eqn:Ht.
  { apply HasPrefix_cons in Ht as [s' ->].
    rewrite (esc_other "n") // (esc_other "r") // esc_hit /=. f_equal.
    apply (IH (String.length s')); [simpl; lia|done]. }
  rewrite (esc_miss "t"); [by rewrite !esc_head|].
  rewrite replace_escapes_miss //. f_equal.
  apply (IH (String.length s)); [simpl; lia|done].
Qed.

Lemma unescape_escape_transform (value : string) :
  unescape value = escape_transform value.
Proof.
  rewrite /unescape /escape_transform Trim_quotes. f_equal. apply escapes_one_pass.
Qed.

(** C5: an assignment line that [parseKeyValue] accepts is split at its
    first [=]; the value filed is the trimmed right side put through the
    escape substitutions and then stripped of all leading and trailing
    double quotes; the key it is filed under is the trimmed left side as
    it stands, and the list of section names is not touched. *)
Theorem C5_value_escape_transform (line : string) (lineNumber : Z)
    (currentSection : string) (p p' : Parser) :
  parseKeyValue line lineNumber currentSection p = Returned None p' →
  ∃ lhs rhs,
    line = lhs +:+ "=" +:+ rhs ∧ ("="%char ∉ chars lhs) ∧
    stored currentSection (TrimSpace lhs) p' = Some (escape_transform (TrimSpace rhs)) ∧
    sections p' = sections p.
Proof.
  rewrite /parseKeyValue SplitN_2.
  destruct (Cut line "=") as [[lhs rhs]|] eqn:Hcut; [|done].
  apply Cut_Some in Hcut as [-> Hnot].
  destruct (bool_decide (TrimSpace lhs = "")); [done|].
  destruct (bool_decide (TrimSpace rhs = "")); [done|].
  rewrite unescape_escape_transform /stored.
  destruct (bool_decide (currentSection = "")).
  - intros [= <-]. exists lhs, rhs. by rewrite /= lookup_insert_eq.
  - destruct (data p !! currentSection) as [m|]; [|done].
    intros [= <-]. exists lhs, rhs. by rewrite /= lookup_insert_eq /= lookup_insert_eq.
Qed.

Lemma C5_value_escape_transform_witness :
  let line := "k\n = " +:+ str QUOTE +:+ str QUOTE +:+ "a\tb\\n" +:+ str QUOTE in
  ∃ lhs rhs,
    line = lhs +:+ "=" +:+ rhs ∧ ("="%char ∉ chars lhs) ∧
    stored "s" (TrimSpace lhs)
      (mkParser {["s" := {["k\n" := "a" +:+ str TAB +:+ "b\" +:+ str LF]}]} ∅ ["s"])
      = Some (escape_transform (TrimSpace rhs)) ∧
    ["s"] = ["s"].
Proof.
  intros line.
  apply (C5_value_escape_transform line 3 "s" (mkParser {["s" := ∅]} ∅ ["s"])).
  vm_compute. reflexivity.
Defined.

(** ** Serialization *)

Lemma foldl_builder {A} (g : A → string) (b : string) (l : list A) :
  foldl (λ b x, b +:+ g x) b l = b +:+ concat_strings (g <$> l).
Proof.
  revert b. induction l as [|x l IH]; intros b; [by rewrite /= append_nil_r|].
  by rewrite /= IH append_assoc.
Qed.

Lemma ToString_unfold (range : gmap string string → list (string * string)) (p : Parser) :
  ToString range p =
  concat_strings ((λ kv, entry_line kv.1 kv.2) <$> range (globalKeys p)) +:+
  concat_strings (section_text range p <$> sections p).
Proof.
  rewrite /ToString foldl_builder /=.
  rewrite -(foldl_builder (section_text range p)).
  generalize (concat_strings ((λ kv, entry_line kv.1 kv.2) <$> range (globalKeys p))).
  induction (sections p) as [|name l IH]; intros b; [done|].
  rewrite /= foldl_builder IH. f_equal.
  by rewrite /section_text append_assoc.
Qed.

Lemma Sorted_le_NoDup_ascending (l : list string) :
  Sorted String.le l → NoDup l → ascending l.
Proof.
  induction 1 as [|x l Hsorted IH Hhd]; intros Hnd; [constructor|].
  apply NoDup_cons in Hnd as [Hx Hnd]. constructor; [by apply IH|].
  destruct Hhd as [|y l Hxy]; constructor. split; [done|].
  intros Hyx. apply Hx. rewrite (anti_symm String.le x y Hxy Hyx). by left.
Qed.

Lemma sorted_keys_spec (range : gmap string string → list (string * string))
    (m : gmap string string) :
  range m ≡ₚ map_to_list m →
  let ks := sort_Strings ((range m).*1) in
  ascending ks ∧ (∀ k, k ∈ ks ↔ is_Some (m !! k)) ∧
  ks = sort_Strings ((map_to_list m).*1).
Proof.
  intros Hperm ks.
  assert (ks ≡ₚ (map_to_list m).*1) as Hks.
  { by rewrite /ks /sort_Strings merge_sort_Permutation Hperm. }
  split; [|split].
  - apply Sorted_le_NoDup_ascending; [apply Sorted_merge_sort, _|].
    rewrite Hks. apply NoDup_fst_map_to_list.
  - intros k. rewrite Hks list_elem_of_fmap. split.
    + intros [[k' v] [-> Hin]]. apply elem_of_map_to_list in Hin. by exists v.
    + intros [v Hv]. exists (k, v). split; [done|]. by apply elem_of_map_to_list.
  - apply (Sorted_unique String.le); [apply Sorted_merge_sort, _..|].
    by rewrite Hks /sort_Strings merge_sort_Permutation.
Qed.

Lemma section_text_block (range : gmap string string → list (string * string))
    (p : Parser) (name : string) :
  (∀ m, range m ≡ₚ map_to_list m) →
  is_section_block p name (section_text range p name).
Proof.
  intros Hperm. rewrite /is_section_block /section_text.
  set (m := default ∅ (data p !! name)).
  destruct (sorted_keys_spec range m (Hperm m)) as (Hasc & Hin & _).
  set (ks := sort_Strings ((range m).*1)) in *.
  exists ((λ k, (k, default "" (m !! k))) <$> ks).
  rewrite -!list_fmap_compose. split; [|split].
  - by rewrite (list_fmap_ext _ id ks) // list_fmap_id.
  - intros k v. rewrite list_elem_of_fmap. split.
    + intros (k' & [= -> ->] & Hk). apply Hin in Hk as [v Hv]. by rewrite Hv.
    + intros Hv. exists k. rewrite Hv. split; [done|]. apply Hin. by exists v.
  - done.
Qed.

(** C9: [ToString] writes the global entries first, each once, as lines
    [key=value] in the order in which [range] visits them; then, for
    every name of the section sequence in its order (as often as the
    name occurs there), the line [[name]] followed by the entries of
    that section, each once, as lines [key=value] in ascending order of
    the keys.  Every line ends with a newline, the byte 10. *)
Theorem C9_ToString_layout (range : gmap string string → list (string * string))
    (p : Parser) :
  (∀ m, range m ≡ₚ map_to_list m) →
  ∃ (globals : list (string * string)) (blocks : list string),
    globals ≡ₚ map_to_list (globalKeys p) ∧
    Forall2
      (λ name block,
         ∃ kvs : list (string * string),
           ascending kvs.*1 ∧
           (∀ k v, (k, v) ∈ kvs ↔ default ∅ (data p !! name) !! k = Some v) ∧
           block =
             "[" +:+ name +:+ "]" +:+ String "010" "" +:+
             concat_strings
               ((λ kv, kv.1 +:+ "=" +:+ kv.2 +:+ String "010" "") <$> kvs))
      (sections p) blocks ∧
    ToString range p =
      concat_strings
        ((λ kv, kv.1 +:+ "=" +:+ kv.2 +:+ String "010" "") <$> globals) +:+
      concat_strings blocks.
Proof.
  intros Hperm.
  exists (range (globalKeys p)), (section_text range p <$> sections p).
  split; [apply Hperm|]. split; [|apply ToString_unfold].
  apply Forall2_fmap_r, Forall2_same_length_lookup_2; [done|].
  intros i name name' Hi Hi'. assert (name' = name) as -> by congruence.
  destruct (section_text_block range p name Hperm) as (kvs & Hasc & Hin & Hblock).
  exists kvs. split; [done|]. split; [done|].
  by rewrite Hblock /header_line !append_assoc.
Qed.

Lemma C9_ToString_layout_witness :
  let p := mkParser {["section1" := {["key2" := "value2"; "key1" := "value1"]};
                      "section2" := {["keyB" := "valueB"; "keyA" := "valueA"]}]}
             {["g" := "0"]} ["section1"; "section2"] in
  ∃ (globals : list (string * string)) (blocks : list string),
    globals ≡ₚ map_to_list (globalKeys p) ∧
    Forall2
      (λ name block,
         ∃ kvs : list (string * string),
           ascending kvs.*1 ∧
           (∀ k v, (k, v) ∈ kvs ↔ default ∅ (data p !! name) !! k = Some v) ∧
           block =
             "[" +:+ name +:+ "]" +:+ String "010" "" +:+
             concat_strings
               ((λ kv, kv.1 +:+ "=" +:+ kv.2 +:+ String "010" "") <$> kvs))
      (sections p) blocks ∧
    ToString map_to_list p =
      concat_strings
        ((λ kv, kv.1 +:+ "=" +:+ kv.2 +:+ String "010" "") <$> globals) +:+
      concat_strings blocks.
Proof.
  intros p. apply (C9_ToString_layout map_to_list p). intros m. reflexivity.
Defined.

(** ** Section names in order of first appearance *)

Lemma first_appearance_ext (seen seen' names : list string) :
  (∀ x, x ∈ seen ↔ x ∈ seen') →
  first_appearance seen names = first_appearance seen' names.
Proof.
  revert seen seen'. induction names as [|x names IH]; intros seen seen' H; [done|].
  rewrite /=. rewrite (bool_decide_ext (x ∈ seen) (x ∈ seen')) //.
  destruct (bool_decide (x ∈ seen')); [by apply IH|]. f_equal. apply IH.
  intros y. rewrite !elem_of_cons. by rewrite H.
Qed.

Lemma first_appearance_app (seen a b : list string) :
  first_appearance seen (a ++ b) =
  first_appearance seen a ++ first_appearance (seen ++ first_appearance seen a) b.
Proof.
  revert seen. induction a as [|x a IH]; intros seen; [by rewrite /= app_nil_r|].
  rewrite /=. destruct (bool_decide (x ∈ seen)); [apply IH|].
  rewrite /= IH. do 2 f_equal. apply first_appearance_ext.
  intros y. rewrite ?elem_of_cons ?elem_of_app ?elem_of_cons. tauto.
Qed.

Lemma first_appearance_elem (seen names : list string) (x : string) :
  x ∈ first_appearance seen names → (x ∉ seen) ∧ (x ∈ names).
Proof.
  revert seen. induction names as [|y names IH]; intros seen; [by intros ?%elem_of_nil|].
  rewrite /=. case_bool_decide as Hy.
  - intros [Hx Hin]%IH. split; [done|]. by right.
  - intros [->|[Hx Hin]%IH]%elem_of_cons; [split; [done|by left]|].
    split; [|by right]. intros ?. apply Hx. by right.
Qed.

Lemma first_appearance_NoDup (seen names : list string) :
  NoDup (first_appearance seen names).
Proof.
  revert seen. induction names as [|y names IH]; intros seen; [constructor|].
  rewrite /=. case_bool_decide; [apply IH|]. constructor; [|apply IH].
  intros [Hy _]%first_appearance_elem. apply Hy. by left.
Qed.

Lemma createSectionIfNotExist_mapped (name : string) (p : Parser) :
  sections_mapped p → sections_mapped (createSectionIfNotExist name p).
Proof.
  intros Hp x. rewrite /createSectionIfNotExist.
  destruct (data p !! name) eqn:E; [apply Hp|].
  rewrite /= elem_of_app list_elem_of_singleton lookup_insert.
  case_decide as Hx; [subst; split; [by eexists|by right]|].
  rewrite -Hp. split; [by intros [|]|by left].
Qed.

Lemma write_mapped (cur key value : string) (p : Parser) :
  current_ok (cur, p) → sections_mapped p → sections_mapped (write cur key value p).
Proof.
  intros Hok Hp x. rewrite /write. case_bool_decide as Hcur; [apply Hp|].
  destruct Hok as [|Hsome]; [done|]. rewrite /= lookup_insert.
  case_decide as Hx; [|apply Hp]. subst x. rewrite Hp. by split; [eexists|].
Qed.

Lemma line_steps_sections (toks : list string) (st : string * Parser) :
  current_ok st → sections_mapped st.2 →
  sections (line_steps st toks).2 =
    sections st.2 ++ first_appearance (sections st.2) (header_names toks) ∧
  sections_mapped (line_steps st toks).2.
Proof.
  revert st. induction toks as [|t toks IH]; intros [cur p] Hok Hp.
  { by rewrite /= app_nil_r. }
  pose proof (line_step_ok _ t Hok) as Hok'. move: Hok'.
  rewrite /line_steps /= /line_step /header_names /=.
  destruct (header_name t) as [name|]; rewrite /= -/(header_names toks).
  - intros Hok'. rewrite -/(line_steps _ toks).
    destruct (IH _ Hok' (createSectionIfNotExist_mapped name p Hp)) as [-> Hm].
    split; [|done]. rewrite /createSectionIfNotExist.
    destruct (data p !! name) as [m|] eqn:E.
    + rewrite bool_decide_eq_true_2 //. apply Hp. by eexists.
    + rewrite bool_decide_eq_false_2 /=.
      { rewrite Hp E. by intros [? ?]. }
      rewrite -app_assoc /=. do 2 f_equal. apply first_appearance_ext.
      intros y. rewrite elem_of_app list_elem_of_singleton elem_of_cons. tauto.
  - destruct (assignment t) as [[k v]|]; intros Hok'; rewrite -/(line_steps _ toks).
    + destruct (IH _ Hok' (write_mapped cur k v p Hok Hp)) as [-> Hm].
      split; [|done]. rewrite /write /=. by case_bool_decide.
    + by apply IH.
Qed.

Lemma parse_all_sections (scanners : list Scanner) (p : Parser) :
  sections_mapped p →
  ∃ p', parse_all scanners p = Returned () p' ∧
    sections p' =
      sections p ++ first_appearance (sections p) (header_names (lines_read_all scanners)) ∧
    sections_mapped p'.
Proof.
  revert p. induction scanners as [|sc scanners IH]; intros p Hp.
  { exists p. by rewrite /= app_nil_r. }
  rewrite /= parse_fold.
  destruct (line_steps_sections (lines_read (tokens sc)) ("", p)) as [Hs Hm];
    [by left|done|].
  destruct (IH _ Hm) as (p' & -> & Hs' & Hm'). exists p'.
  split; [done|]. split; [|done].
  rewrite Hs' Hs /lines_read_all /= /header_names omap_app first_appearance_app.
  by rewrite -app_assoc.
Qed.

Lemma header_accepted (text name : string) : header_name text = Some name → accepted text = true.
Proof.
  intros (_ & Hhdr & _)%header_name_Some. by rewrite /accepted Hhdr orb_true_r.
Qed.

(** C4: after any number of parse passes over a new document, failed
    ones included, the section sequence is the names of the header lines
    read, each once, in the order of their first appearance; it has no
    duplicates; a name is listed exactly when the section mapping has an
    entry for it; and a header that names a listed section leaves the
    document as it is, its keys included. *)
Theorem C4_parse_only_sections (scanners : list Scanner) :
  ∃ p, parse_all scanners NewParser = Returned () p ∧
    GetSectionNames p = first_appearance [] (header_names (lines_read_all scanners)) ∧
    NoDup (GetSectionNames p) ∧
    (∀ name, name ∈ GetSectionNames p ↔ is_Some (GetSections p !! name)) ∧
    (∀ text name, header_name text = Some name → name ∈ GetSectionNames p →
       parse (mkScanner [text] None) p = Returned None p).
Proof.
  destruct (parse_all_sections scanners NewParser) as (p & Hrun & Hs & Hm).
  { intros name. rewrite /= lookup_empty elem_of_nil. split; [done|by intros [? ?]]. }
  exists p. rewrite /GetSectionNames /GetSections.
  split; [done|]. split; [done|]. split; [rewrite Hs; apply first_appearance_NoDup|].
  split; [done|].
  intros text name Hname Hin.
  rewrite parse_fold /= (header_accepted _ _ Hname) /= /line_step Hname /=.
  by rewrite createSectionIfNotExist_existing; [apply Hm|].
Qed.

(** ** The scenarios of the test suite *)

Example scenario_single_section :
  let text := "[section1]" +:+ str LF +:+ "key1=value1" +:+ str LF +:+ "key2=value2" +:+ str LF in
  ∃ p, LoadFromString text NewParser = Returned None p ∧
    GetSectionNames p = ["section1"] ∧ Get "section1" "key1" p = ("value1", true).
Proof. eexists. split; [vm_compute; reflexivity|]. split; reflexivity. Qed.

Example scenario_missing_separator :
  ∃ p, parse (mkScanner [""; "[section1]"; "key1=value1"; "key2"; "key3=value3"] None)
         NewParser
       = Returned (Some (errorString "line 4: invalid key-value pair: key2")) p.
Proof. eexists. vm_compute. reflexivity. Qed.

Example scenario_global_keys :
  let text := "key1=value1" +:+ str LF +:+ "key2=value2" +:+ str LF in
  ∃ p, LoadFromString text NewParser = Returned None p ∧
    GetGlobalKeys p = {["key1" := "value1"; "key2" := "value2"]} ∧
    GetSectionNames p = [].
Proof. eexists. split; [vm_compute; reflexivity|]. split; reflexivity. Qed.

Example scenario_serialize :
  ToString map_to_list
    (mkParser {["section1" := {["key1" := "value1"; "key2" := "value2"]};
                "section2" := {["keyA" := "valueA"; "keyB" := "valueB"]}]}
              ∅ ["section1"; "section2"])
  = "[section1]" +:+ str LF +:+ "key1=value1" +:+ str LF +:+ "key2=value2" +:+ str LF +:+
    "[section2]" +:+ str LF +:+ "keyA=valueA" +:+ str LF +:+ "keyB=valueB" +:+ str LF.
Proof. vm_compute. reflexivity. Qed.

Example scenario_entry_points :
  scan [""; "a=b"] = (["";"a=b"], None) ∧ Ext "conf/app.ini" = ".ini" ∧
  ParseFile (λ _, inl (errorString "open: no such file")) "app.txt" NewParser
    = Returned (Some (errorString ".ini format is only support")) NewParser.
Proof. split; [|split]; reflexivity. Qed.

(** * Further properties of the package *)

(** ** [Set] and [Get] *)

Lemma Set_lookup (section key value : string) (p : Parser) :
  data (Set_ section key value p) !! section
  = Some (<[key := value]> (default ∅ (data p !! section))).
Proof.
  rewrite /Set_ /= lookup_insert_eq. f_equal.
  destruct (data p !! section) as [m|] eqn:E; [by rewrite E|].
  by rewrite lookup_insert_eq.
Qed.

Lemma Set_lookup_ne (section key value section' : string) (p : Parser) :
  section' ≠ section → data (Set_ section key value p) !! section' = data p !! section'.
Proof.
  intros Hne. rewrite /Set_ /= lookup_insert_ne //.
  destruct (data p !! section); [done|]. by rewrite lookup_insert_ne.
Qed.

(** X1: what [Set] writes, [Get] reads back, with [found = true];
    the section is created when the document does not have it. *)
Theorem Get_after_Set (section key value : string) (p : Parser) :
  Get section key (Set_ section key value p) = (value, true).
Proof. by rewrite /Get Set_lookup lookup_insert_eq. Qed.

(** X2: [Set] on one key leaves the rest alone: [Get] on another section
    answers as before, the value of another key of the same section is as
    before, and the global keys are not touched. *)
Theorem Set_leaves_the_rest (section key value section' key' : string) (p : Parser) :
  (section', key') ≠ (section, key) →
  (section' ≠ section →
     Get section' key' (Set_ section key value p) = Get section' key' p) ∧
  (Get section' key' (Set_ section key value p)).1 = (Get section' key' p).1 ∧
  GetGlobalKeys (Set_ section key value p) = GetGlobalKeys p.
Proof.
  intros Hne. split; [|split; [|done]].
  - intros Hs. by rewrite /Get Set_lookup_ne.
  - destruct (decide (section' = section)) as [->|Hs].
    + assert (key' ≠ key) as Hk by congruence.
      rewrite /Get Set_lookup /= lookup_insert_ne //.
      by destruct (data p !! section).
    + by rewrite /Get Set_lookup_ne.
Qed.

Lemma Set_leaves_the_rest_witness :
  let p := Set_ "a" "k" "1" NewParser in
  (Get "a" "j" (Set_ "a" "k" "2" p)).1 = (Get "a" "j" p).1.
Proof.
  intros p.
  apply (Set_leaves_the_rest "a" "k" "2" "a" "j" p). by intros [= ?].
Defined.

(** X3: on one key the last [Set] wins: after two calls the section
    mapping is the one the second call alone gives. *)
Theorem Set_twice (section key value1 value2 : string) (p : Parser) :
  GetSections (Set_ section key value2 (Set_ section key value1 p))
  = GetSections (Set_ section key value2 p).
Proof.
  rewrite /GetSections. apply map_eq. intros s.
  destruct (decide (s = section)) as [->|Hs].
  - by rewrite !Set_lookup /= insert_insert_eq.
  - by rewrite !Set_lookup_ne.
Qed.

(** ** Panics *)

Lemma parse_returns (sc : Scanner) (p : Parser) : ∃ e p', parse sc p = Returned e p'.
Proof. rewrite parse_fold. by eexists _, _. Qed.

(** X4: [parseKeyValue] panics exactly on a well-formed assignment for a
    current section that is named but not in the section mapping; no
    sequence of [Set] calls and parse passes ever gets there: it always
    returns. *)
Theorem panic_only_outside_parse :
  (∀ line lineNumber currentSection p,
     parseKeyValue line lineNumber currentSection p = Panicked ↔
     well_formed line = true ∧ currentSection ≠ "" ∧ data p !! currentSection = None) ∧
  (∀ ops p, ∃ p', run ops p = Returned () p').
Proof.
  split.
  - intros line n cur p. rewrite /parseKeyValue /well_formed SplitN_2.
    destruct (Cut line "=") as [[a b]|]; [|by split; [|intros [? _]]].
    destruct (bool_decide (TrimSpace a = "")); [by split; [|intros [? _]]|].
    destruct (bool_decide (TrimSpace b = "")); [by split; [|intros [? _]]|].
    case_bool_decide as Hcur; [by split; [|intros (_ & ? & _)]|].
    destruct (data p !! cur); [by split; [|intros (_ & _ & ?)]|done].
  - intros ops. induction ops as [|[s k v|sc] ops IH]; intros p.
    + by exists p.
    + apply IH.
    + rewrite /=. destruct (parse_returns sc p) as (e & p' & ->). apply IH.
Qed.

(** ** Success *)

Lemma first_error_None (toks : list string) (n : Z) :
  first_error toks n = None ↔ forallb accepted toks = true.
Proof.
  revert n. induction toks as [|t toks IH]; intros n; [done|].
  rewrite /=. destruct (accepted t); [apply IH|done].
Qed.

Lemma lines_read_all_accepted (toks : list string) :
  forallb accepted toks = true → lines_read toks = toks.
Proof.
  induction toks as [|t toks IH]; [done|].
  rewrite /=. intros [-> Htoks]%andb_true_iff. by rewrite IH.
Qed.

(** X5: a parse pass returns no error exactly when every line is blank,
    a comment, a header or a well-formed assignment and the scanner
    itself ends without error; on any other input it returns an error. *)
Theorem parse_succeeds_iff (sc : Scanner) (p : Parser) :
  (∃ p', parse sc p = Returned None p') ↔
  forallb accepted (tokens sc) = true ∧ Err sc = None.
Proof.
  rewrite parse_fold. split.
  - intros [p' Hp].
    destruct (first_error (tokens sc) 0) eqn:E; [done|].
    apply first_error_None in E. split; [done|]. by injection Hp.
  - intros [Hacc ->]. apply (first_error_None _ 0) in Hacc. rewrite Hacc.
    by eexists.
Qed.

(** ** Blank lines and comments *)







(** ** Nothing is lost *)

Lemma extends_refl (p : Parser) : extends p p.
Proof. by split; [|split; [|split]]. Qed.

Lemma extends_trans (p q r : Parser) : extends p q → extends q r → extends p r.
Proof.
  intros (H1 & H2 & H3 & H4) (H1' & H2' & H3' & H4').
  split; [by etrans|]. split; [auto|]. split; auto.
Qed.

Lemma createSectionIfNotExist_extends (name : string) (p : Parser) :
  extends p (createSectionIfNotExist name p).
Proof.
  rewrite /createSectionIfNotExist.
  destruct (data p !! name) eqn:E; [apply extends_refl|].
  split; [by apply prefix_app_r|]. split; [|split; [|done]].
  - intros s Hs. rewrite /= lookup_insert_ne //. intros <-. rewrite E in Hs.
    by destruct Hs.
  - intros s k (m & Hm & Hk). exists m. split; [|done].
    rewrite /= lookup_insert_ne //. congruence.
Qed.

Lemma write_extends (cur key value : string) (p : Parser) :
  extends p (write cur key value p).
Proof.
  rewrite /write. case_bool_decide as Hcur.
  - split; [done|]. split; [done|]. split; [done|].
    intros k Hk. rewrite /= lookup_insert. by case_decide.
  - split; [done|]. split; [|split; [|done]].
    + intros s Hs. rewrite /= lookup_insert. by case_decide.
    + intros s k (m & Hm & Hk). rewrite /has_key /= lookup_insert.
      case_decide as Hs; [|by exists m]. subst s. rewrite Hm /=.
      eexists. split; [done|]. rewrite lookup_insert. by case_decide.
Qed.

Lemma line_step_extends (st : string * Parser) (text : string) :
  extends st.2 (line_step st text).2.
Proof.
  rewrite /line_step. destruct (header_name text) as [name|].
  { apply createSectionIfNotExist_extends. }
  destruct (assignment text) as [[k v]|]; [apply write_extends|apply extends_refl].
Qed.

Lemma line_steps_extends (toks : list string) (st : string * Parser) :
  extends st.2 (line_steps st toks).2.
Proof.
  revert st. induction toks as [|t toks IH]; intros st; [apply extends_refl|].
  eapply extends_trans; [apply (line_step_extends st t)|apply IH].
Qed.

(** X7: a parse pass, failed or not, only adds: the section names the
    document had stay at the front of the sequence in their order, and
    every section, every key of a section and every global key it had is
    still there afterwards (the value of a key may be overwritten). *)
Theorem parse_only_adds (sc : Scanner) (p : Parser) :
  ∃ e p', parse sc p = Returned e p' ∧
    GetSectionNames p `prefix_of` GetSectionNames p' ∧
    (∀ s, is_Some (GetSections p !! s) → is_Some (GetSections p' !! s)) ∧
    (∀ s k, has_key s k p → has_key s k p') ∧
    (∀ k, is_Some (GetGlobalKeys p !! k) → is_Some (GetGlobalKeys p' !! k)).
Proof.
  rewrite parse_fold. eexists _, _. split; [done|].
  apply (line_steps_extends _ ("", p)).
Qed.

(** ** Passes compose *)

Lemma line_steps_app (st : string * Parser) (a b : list string) :
  line_steps st (a ++ b) = line_steps (line_steps st a) b.
Proof. apply foldl_app. Qed.

Lemma line_steps_header (cur cur' : string) (q : Parser) (hdr : string)
    (rest : list string) (name : string) :
  header_name hdr = Some name →
  line_steps (cur, q) (hdr :: rest) = line_steps (cur', q) (hdr :: rest).
Proof. intros H. by rewrite /line_steps /= /line_step H. Qed.

Lemma forallb_accepted_app (a b : list string) :
  forallb accepted (a ++ b) = forallb accepted a && forallb accepted b.
Proof. apply forallb_app. Qed.

Lemma lines_read_app (a b : list string) :
  forallb accepted a = true → lines_read (a ++ b) = a ++ lines_read b.
Proof.
  induction a as [|t a IH]; [done|].
  rewrite /=. intros [-> Ha]%andb_true_iff. by rewrite IH.
Qed.

(** X8: one pass over an input whose second part opens with a header
    does to the document what two passes do, one over the first part and
    one over the second, provided the first part has no rejected line;
    and the one pass fails exactly when the second of the two fails. *)
Theorem parse_splits_at_header (final : option error) (toks1 rest : list string)
    (hdr name : string) (p : Parser) :
  forallb accepted toks1 = true →
  header_name hdr = Some name →
  ∃ p1 e e' p',
    parse (mkScanner toks1 None) p = Returned None p1 ∧
    parse (mkScanner (toks1 ++ hdr :: rest) final) p = Returned e p' ∧
    parse (mkScanner (hdr :: rest) final) p1 = Returned e' p' ∧
    (e = None ↔ e' = None).
Proof.
  intros Hacc Hhdr. exists (line_steps ("", p) toks1).2.
  rewrite !parse_fold /=.
  rewrite (proj2 (first_error_None toks1 0) Hacc) lines_read_all_accepted //.
  rewrite lines_read_app // line_steps_app (header_accepted _ _ Hhdr).
  eexists _, _, _. split; [done|]. split; [done|]. split.
  - f_equal. destruct (line_steps ("", p) toks1) as [cur q] eqn:E.
    rewrite [lines_read (hdr :: rest)]/= (header_accepted _ _ Hhdr).
    by rewrite (line_steps_header cur "" q hdr (lines_read rest) name Hhdr).
  - destruct (first_error (toks1 ++ hdr :: rest) 0) as [e|] eqn:E;
      destruct (first_error rest (incr 0)) as [e'|] eqn:E'; try done.
    + apply first_error_None in E'.
      assert (forallb accepted (toks1 ++ hdr :: rest) = true) as H.
      { by rewrite forallb_accepted_app Hacc /= (header_accepted _ _ Hhdr) E'. }
      apply (first_error_None _ 0) in H. congruence.
    + apply first_error_None in E. move: E.
      rewrite forallb_accepted_app /= => /andb_true_iff [_ /andb_true_iff [_ H]].
      apply (first_error_None _ (incr 0)) in H. congruence.
Qed.

Lemma parse_splits_at_header_witness :
  ∃ p1 e e' p',
    parse (mkScanner ["g=1"; "[a]"; "k=v"] None) NewParser = Returned None p1 ∧
    parse (mkScanner (["g=1"; "[a]"; "k=v"] ++ "[b]" :: ["k"]) None) NewParser
      = Returned e p' ∧
    parse (mkScanner ("[b]" :: ["k"]) None) p1 = Returned e' p' ∧
    (e = None ↔ e' = None).
Proof.
  apply (parse_splits_at_header None ["g=1"; "[a]"; "k=v"] ["k"] "[b]" "b" NewParser);
    reflexivity.
Defined.

(** ** Where assignments go *)

Lemma line_steps_no_header (toks : list string) (st : string * Parser) :
  forallb no_header toks = true → (line_steps st toks).1 = st.1.
Proof.
  revert st. induction toks as [|t toks IH]; intros st; [done|].
  rewrite /=. intros [Ht Htoks]%andb_true_iff.
  rewrite /line_steps /= -/(line_steps _ toks) IH //.
  move: Ht. rewrite /no_header /line_step. destruct (header_name t); [done|].
  by destruct (assignment t) as [[k v]|].
Qed.

Lemma Get_write (cur key value : string) (p : Parser) :
  cur ≠ "" → Get cur key (write cur key value p) = (value, true).
Proof.
  intros Hcur. rewrite /write bool_decide_eq_false_2 // /Get /=.
  by rewrite lookup_insert_eq lookup_insert_eq.
Qed.

(** X9: an accepted assignment that is the last line of a section with a
    non-empty name can be read back: after the pass [Get] on the name of
    the last header before it and on its key gives its value, with
    [found = true]. *)
Theorem assignment_in_section_is_retrievable (final : option error)
    (pre mid : list string) (hdr text s k v : string) (p : Parser) :
  forallb accepted (pre ++ hdr :: mid ++ [text]) = true →
  header_name hdr = Some s → s ≠ "" →
  forallb no_header mid = true →
  assignment text = Some (k, v) →
  ∃ p', parse (mkScanner (pre ++ hdr :: mid ++ [text]) final) p = Returned final p' ∧
        Get s k p' = (v, true).
Proof.
  intros Hacc Hhdr Hs Hmid Hkv. rewrite parse_fold /=.
  rewrite (proj2 (first_error_None _ 0) Hacc) lines_read_all_accepted //.
  eexists. split; [done|].
  rewrite line_steps_app (app_comm_cons mid [text] hdr) line_steps_app.
  set (st := line_steps (line_steps ("", p) pre) (hdr :: mid)).
  assert (st.1 = s) as Hcur.
  { rewrite /st /line_steps /= -/(line_steps _ mid) line_steps_no_header //.
    by rewrite /line_step Hhdr. }
  rewrite /line_steps /= /line_step Hkv.
  assert (header_name text = None) as ->.
  { move: Hkv. rewrite /assignment /header_name.
    destruct (is_skipped (TrimSpace text)); [done|].
    by destruct (is_header (TrimSpace text)). }
  rewrite /= Hcur. by apply Get_write.
Qed.

Lemma assignment_in_section_is_retrievable_witness :
  ∃ p', parse (mkScanner (["g = 0"] ++ "[db]" :: ["# port"; "port = 1"] ++ ["port=5432"])
                 None) NewParser = Returned None p' ∧
        Get "db" "port" p' = ("5432", true).
Proof.
  apply (assignment_in_section_is_retrievable None ["g = 0"] ["# port"; "port = 1"]
           "[db]" "port=5432" "db" "port" "5432" NewParser); try reflexivity.
  by intros [=].
Defined.

(** X10: as long as no header has been read, assignments go to the
    global keys: a pass over an input without header lines leaves the
    sections as they were and writes the accepted assignments, in order,
    to the global keys. *)
Theorem input_without_header_is_global (final : option error)
    (toks : list string) (p : Parser) :
  forallb no_header toks = true →
  ∃ e p', parse (mkScanner toks final) p = Returned e p' ∧
    GetSectionNames p' = GetSectionNames p ∧ GetSections p' = GetSections p ∧
    GetGlobalKeys p' = write_all (omap assignment (lines_read toks)) (GetGlobalKeys p).
Proof.
  intros Htoks. rewrite parse_fold /=.
  rewrite line_steps_no_section; [by apply lines_read_forallb|].
  by eexists _, _.
Qed.

Lemma input_without_header_is_global_witness :
  ∃ e p', parse (mkScanner ["key1=value1"; "key2=value2"; "key1 = other"] None) NewParser
            = Returned e p' ∧
    GetSectionNames p' = [] ∧ GetSections p' = ∅ ∧
    GetGlobalKeys p' =
      write_all [("key1", "value1"); ("key2", "value2"); ("key1", "other")] ∅.
Proof.
  apply (input_without_header_is_global None
           ["key1=value1"; "key2=value2"; "key1 = other"] NewParser).
  reflexivity.
Defined.

(** ** The error of a failed pass *)

Lemma iter_incr (k : nat) (n : Z) :
  (0 ≤ n)%Z → (n + Z.of_nat k ≤ MaxInt)%Z → Nat.iter k incr n = (n + Z.of_nat k)%Z.
Proof.
  induction k as [|k IH]; intros Hn Hk; [rewrite /=; lia|].
  rewrite /= IH; [lia..|]. rewrite /incr bool_decide_eq_false_2; lia.
Qed.

Lemma first_error_Some (toks : list string) (n : Z) (e : error) :
  first_error toks n = Some e →
  ∃ pre text post,
    toks = pre ++ text :: post ∧ forallb accepted pre = true ∧ accepted text = false ∧
    e = line_error (Nat.iter (S (length pre)) incr n) (TrimSpace text).
Proof.
  revert n. induction toks as [|t toks IH]; intros n; [done|].
  rewrite /=. destruct (accepted t) eqn:Ht.
  - intros (pre & text & post & -> & Hpre & Htext & ->)%IH.
    exists (t :: pre), text, post. rewrite /= Ht Hpre. split; [done|].
    split; [done|]. split; [done|]. by rewrite -!Nat.iter_succ_r.
  - intros [= <-]. by exists [], t, toks.
Qed.

Lemma line_error_reason (n : Z) (line : string) :
  ∃ reason, reason ∈ reasons ∧ line_error n line = Errorf_line reason n line.
Proof.
  rewrite /line_error /reasons.
  destruct (SplitN line "=" 2) as [|a [|b [|c l]]];
    try (exists "invalid key-value pair"; split; [set_solver|done]).
  case_bool_decide.
  - exists "key cannot be empty". split; [set_solver|done].
  - exists "value cannot be empty". split; [set_solver|done].
Qed.

(** X11: the error of a failed pass is the scanner's own, when every
    line was accepted, or else it is about the first rejected line and
    nothing after it: its message is [line N: reason: text] with [N] the
    position of that line counted from 1, [reason] one of the three
    syntax errors and [text] the line without surrounding white space. *)
Theorem parse_error_is_first_rejected_line (sc : Scanner) (p p' : Parser) (e : error) :
  parse sc p = Returned (Some e) p' →
  (forallb accepted (tokens sc) = true ∧ Err sc = Some e) ∨
  ∃ pre text post reason,
    tokens sc = pre ++ text :: post ∧
    forallb accepted pre = true ∧ accepted text = false ∧
    reason ∈ reasons ∧
    ((Z.of_nat (length pre) < MaxInt)%Z →
       Error e = "line " +:+ itoa (Z.of_nat (length pre) + 1) +:+ ": " +:+ reason
                 +:+ ": " +:+ TrimSpace text).
Proof.
  rewrite parse_fold. destruct (first_error (tokens sc) 0) as [e'|] eqn:E.
  - intros [= -> _]. right.
    apply first_error_Some in E as (pre & text & post & Htoks & Hpre & Htext & ->).
    destruct (line_error_reason (Nat.iter (S (length pre)) incr 0%Z) (TrimSpace text))
      as (reason & Hreason & ->).
    exists pre, text, post, reason. do 4 (split; [done|]).
    intros Hlen. rewrite iter_incr; [lia..|].
    rewrite /Errorf_line /=.
    by replace (0 + Z.of_nat (S (length pre)))%Z with (Z.of_nat (length pre) + 1)%Z by lia.
  - intros [= -> _]. left. split; [|done]. by apply (first_error_None _ 0).
Qed.

Lemma parse_error_is_first_rejected_line_witness :
  (forallb accepted ["[a]"; "k=v"; " = v"; "x"] = true ∧ None = Some (EmptyKey 3 "= v")) ∨
  ∃ pre text post reason,
    ["[a]"; "k=v"; " = v"; "x"] = pre ++ text :: post ∧
    forallb accepted pre = true ∧ accepted text = false ∧
    reason ∈ reasons ∧
    ((Z.of_nat (length pre) < MaxInt)%Z →
       Error (EmptyKey 3 "= v") =
       "line " +:+ itoa (Z.of_nat (length pre) + 1) +:+ ": " +:+ reason
       +:+ ": " +:+ TrimSpace text).
Proof.
  apply (parse_error_is_first_rejected_line
           (mkScanner ["[a]"; "k=v"; " = v"; "x"] None) NewParser
           (mkParser {["a" := {["k" := "v"]}]} ∅ ["a"]) (EmptyKey 3 "= v")).
  vm_compute. reflexivity.
Defined.

(** ** Determinism of [ToString] *)

Lemma section_text_order (range1 range2 : gmap string string → list (string * string))
    (p : Parser) (name : string) :
  (∀ m, range1 m ≡ₚ map_to_list m) → (∀ m, range2 m ≡ₚ map_to_list m) →
  section_text range1 p name = section_text range2 p name.
Proof.
  intros H1 H2. rewrite /section_text.
  set (m := default ∅ (data p !! name)).
  destruct (sorted_keys_spec range1 m (H1 m)) as (_ & _ & ->).
  by destruct (sorted_keys_spec range2 m (H2 m)) as (_ & _ & ->).
Qed.

(** X12: the text of the sections does not depend on the order in which
    Go visits a map.  With at most one global key the whole of
    [ToString] is determined by the document. *)
Theorem ToString_deterministic (range1 range2 : gmap string string → list (string * string))
    (p : Parser) :
  (∀ m, range1 m ≡ₚ map_to_list m) → (∀ m, range2 m ≡ₚ map_to_list m) →
  size (GetGlobalKeys p) ≤ 1 →
  ToString range1 p = ToString range2 p.
Proof.
  intros H1 H2 Hsize. rewrite !ToString_unfold. f_equal.
  - assert (range1 (globalKeys p) = range2 (globalKeys p)) as ->; [|done].
    pose proof (H1 (globalKeys p)) as P1. pose proof (H2 (globalKeys p)) as P2.
    move: Hsize. rewrite /GetGlobalKeys -length_map_to_list.
    destruct (map_to_list (globalKeys p)) as [|kv [|kv' l]]; rewrite /=; [| |lia].
    + apply Permutation_nil_r in P1, P2. by rewrite P1 P2.
    + apply Permutation_singleton_r in P1, P2. by rewrite P1 P2.
  - f_equal. apply list_fmap_ext. intros _ name _. by apply section_text_order.
Qed.

Lemma ToString_deterministic_witness :
  let p := mkParser {["b" := {["y" := "2"; "x" := "1"]}]} {["g" := "0"]} ["b"] in
  ToString map_to_list p = ToString (λ m, reverse (map_to_list m)) p.
Proof.
  intros p. apply ToString_deterministic.
  - done.
  - intros m. by rewrite reverse_Permutation.
  - rewrite /p /GetGlobalKeys /= map_size_singleton. lia.
Defined.

(** ** The extension check *)

Lemma Ext_suffix (path : string) : ∃ stem, path = stem +:+ Ext path.
Proof.
  induction path as [|c path [stem IH]]; [by exists ""|].
  rewrite /=. destruct (has_slash path).
  { exists (String c stem). by rewrite append_cons -IH. }
  destruct (Ext path) as [|d ext] eqn:E.
  - case_bool_decide; [by exists ""|]. exists (String c path). by rewrite append_nil_r.
  - exists (String c stem). by rewrite append_cons -IH.
Qed.

Lemma Ext_ini (stem : string) : Ext (stem +:+ ".ini") = ".ini".
Proof.
  induction stem as [|c stem IH]; [done|].
  rewrite append_cons /= IH. by destruct (has_slash _).
Qed.

(** X13: [ParseFile] lets a path through its extension check exactly
    when the path ends in [.ini] (a path that is only [.ini], or whose
    last element is, included); any other path is refused before the
    file is opened and the document is left as it was. *)
Theorem ParseFile_extension_check (os_Open : string → error + Scanner)
    (filePath : string) (p : Parser) :
  (Ext filePath = ".ini" ↔ ∃ stem, filePath = stem +:+ ".ini") ∧
  ((∃ stem, filePath = stem +:+ ".ini") ∨
   ParseFile os_Open filePath p =
     Returned (Some (errorString ".ini format is only support")) p).
Proof.
  assert (Ext filePath = ".ini" ↔ ∃ stem, filePath = stem +:+ ".ini") as Hiff.
  { split.
    - intros H. destruct (Ext_suffix filePath) as [stem Hstem]. exists stem.
      by rewrite -H.
    - intros [stem ->]. apply Ext_ini. }
  split; [done|].
  destruct (decide (Ext filePath = ".ini")) as [H|H]; [left; by apply Hiff|].
  right. by rewrite /ParseFile bool_decide_eq_true_2.
Qed.

(** ** An invariant of every document *)

Lemma Set_mapped (section key value : string) (p : Parser) :
  sections_mapped p → sections_mapped (Set_ section key value p).
Proof.
  intros Hp s. rewrite Set_sections elem_of_app list_elem_of_singleton.
  destruct (decide (s = section)) as [->|Hs].
  - rewrite Set_lookup. split; [by eexists|by right].
  - rewrite Set_lookup_ne // -Hp. split; [by intros [|]|by left].
Qed.

Lemma parse_mapped (sc : Scanner) (p : Parser) :
  sections_mapped p → ∃ e p', parse sc p = Returned e p' ∧ sections_mapped p'.
Proof.
  intros Hp. rewrite parse_fold. eexists _, _. split; [done|].
  by apply (line_steps_sections _ ("", p)); [left|].
Qed.

(** X14: whatever calls of [Set] and parse passes a new document goes
    through, in any order, the names of [GetSectionNames] are exactly
    the sections of [GetSections]: no section is kept without being
    listed (so [ToString] writes every one) and none is listed without
    an entry. *)
Theorem sections_are_listed (ops : list operation) :
  ∃ p, run ops NewParser = Returned () p ∧
    ∀ name, name ∈ GetSectionNames p ↔ is_Some (GetSections p !! name).
Proof.
  assert (∀ q, sections_mapped q →
            ∃ p, run ops q = Returned () p ∧ sections_mapped p) as H.
  { induction ops as [|[s k v|sc] ops IH]; intros q Hq.
    - by exists q.
    - apply IH. by apply Set_mapped.
    - rewrite /=. destruct (parse_mapped sc q Hq) as (e & q' & -> & Hq'). by apply IH. }
  apply H. intros name. rewrite /= lookup_empty elem_of_nil.
  split; [done|by intros [? ?]].
Qed.

(** ** The escape transformer at its edges *)

Lemma replace_escapes_no_backslash (v : string) :
  BACKSLASH ∉ chars v → replace_escapes v = v.
Proof.
  induction v as [|c v IH]; [done|].
  intros H. rewrite /chars /= -/(chars v) in H.
  apply not_elem_of_cons in H as [Hc Hv].
  rewrite replace_escapes_other; [congruence|]. by rewrite IH.
Qed.

Lemma drop_front_head (f : ascii → bool) (l : list ascii) (c : ascii) :
  head (drop_front f l) = Some c → f c = false.
Proof.
  induction l as [|d l IH]; [done|].
  rewrite /=. destruct (f d) eqn:E; [done|]. by intros [= <-].
Qed.

Lemma drop_front_id (f : ascii → bool) (l : list ascii) :
  (∀ c, head l = Some c → f c = false) → drop_front f l = l.
Proof. destruct l as [|d l]; [done|]. intros H. by rewrite /= H. Qed.

Lemma drop_front_suffix (f : ascii → bool) (l : list ascii) :
  ∃ pre, l = pre ++ drop_front f l ∧ Forall (λ c, f c = true) pre.
Proof.
  induction l as [|d l (pre & IH & Hpre)]; [by exists []|].
  rewrite /=. destruct (f d) eqn:E; [|by exists []].
  exists (d :: pre). split; [by rewrite /= -IH|by constructor].
Qed.

Lemma drop_end_prefix (f : ascii → bool) (l : list ascii) :
  ∃ suf, l = drop_end f l ++ suf ∧ Forall (λ c, f c = true) suf.
Proof.
  destruct (drop_front_suffix f (reverse l)) as (pre & H & Hpre).
  exists (reverse pre). split; [|by apply Forall_reverse].
  by rewrite /drop_end -reverse_app -H reverse_involutive.
Qed.

Lemma drop_end_last (f : ascii → bool) (l : list ascii) (c : ascii) :
  last (drop_end f l) = Some c → f c = false.
Proof. rewrite /drop_end last_reverse. apply drop_front_head. Qed.

Lemma drop_end_id (f : ascii → bool) (l : list ascii) :
  (∀ c, last l = Some c → f c = false) → drop_end f l = l.
Proof.
  intros H. rewrite /drop_end drop_front_id ?reverse_involutive //.
  intros c. rewrite head_reverse. apply H.
Qed.

Lemma chars_of_list (l : list ascii) : chars (String.string_of_list_ascii l) = l.
Proof. apply String.list_ascii_of_string_of_list_ascii. Qed.

Lemma strip_ends_id (f : ascii → bool) (s : string) :
  (∀ c, first_byte s = Some c → f c = false) →
  (∀ c, last_byte s = Some c → f c = false) →
  strip_ends f s = s.
Proof.
  intros Hfirst Hlast. apply chars_inj.
  by rewrite /strip_ends chars_of_list drop_front_id // drop_end_id.
Qed.

Lemma strip_ends_all (f : ascii → bool) (s : string) :
  Forall (λ c, f c = true) (chars s) → strip_ends f s = "".
Proof.
  intros Hall. apply chars_inj. rewrite /strip_ends chars_of_list.
  assert (drop_front f (chars s) = []) as ->; [|done].
  induction Hall as [|c l Hc Hl IH]; [done|]. by rewrite /= Hc.
Qed.

Lemma escape_transform_id (value : string) :
  BACKSLASH ∉ chars value →
  first_byte value ≠ Some QUOTE → last_byte value ≠ Some QUOTE →
  escape_transform value = value.
Proof.
  intros Hb Hfirst Hlast.
  rewrite /escape_transform replace_escapes_no_backslash //.
  apply strip_ends_id; intros c Hc; rewrite /is_quote;
    apply bool_decide_eq_false_2; congruence.
Qed.

(** X15: a value without backslash that neither starts nor ends with a
    double quote comes out of the escape transformer as it went in. *)
Theorem unescape_plain (value : string) :
  BACKSLASH ∉ chars value →
  first_byte value ≠ Some QUOTE → last_byte value ≠ Some QUOTE →
  unescape value = value.
Proof.
  intros Hb Hfirst Hlast. rewrite unescape_escape_transform.
  by apply escape_transform_id.
Qed.

Lemma unescape_plain_witness : unescape ("say " +:+ str QUOTE +:+ "hi" +:+ str QUOTE +:+ "!")
  = "say " +:+ str QUOTE +:+ "hi" +:+ str QUOTE +:+ "!".
Proof.
  apply unescape_plain.
  - vm_compute. intros H%list_elem_of_In. repeat destruct H as [H|H]; try done.
  - done.
  - done.
Defined.

(** X16: what the escape transformer gives never starts and never ends
    with a double quote; it can be empty, although empty values are
    refused, namely when the value is made of double quotes only. *)
Theorem unescape_quotes (value : string) :
  first_byte (unescape value) ≠ Some QUOTE ∧
  last_byte (unescape value) ≠ Some QUOTE ∧
  (Forall (λ c, c = QUOTE) (chars value) → unescape value = "").
Proof.
  rewrite unescape_escape_transform /escape_transform /strip_ends.
  set (l := chars (replace_escapes value)).
  rewrite /first_byte /last_byte chars_of_list. split; [|split].
  - intros Hhead.
    destruct (drop_end_prefix is_quote (drop_front is_quote l)) as (suf & Hsuf & _).
    assert (head (drop_front is_quote l) = Some QUOTE) as H.
    { rewrite Hsuf. by destruct (drop_end is_quote (drop_front is_quote l)). }
    by apply drop_front_head in H.
  - by intros H%drop_end_last.
  - intros Hall. rewrite -/(strip_ends is_quote (replace_escapes value)).
    rewrite replace_escapes_no_backslash.
    { intros Hin. rewrite Forall_forall in Hall. by apply Hall in Hin. }
    apply strip_ends_all. eapply Forall_impl; [done|].
    intros c ->. done.
Qed.

Lemma unescape_quotes_witness : unescape (str QUOTE +:+ str QUOTE) = "".
Proof.
  apply (unescape_quotes (str QUOTE +:+ str QUOTE)). by repeat constructor.
Defined.

(** ** Text without surrounding white space *)

Lemma space_width_graphic (encs : list (list ascii)) (c : ascii) (l : list ascii) :
  Forall (λ e, ∀ b, head e = Some b → graphic b = false) encs →
  Forall (λ e, e ≠ []) encs →
  graphic c = true → space_width encs (c :: l) = 0.
Proof.
  intros Hencs Hne Hc. induction encs as [|e encs IH]; [done|].
  apply Forall_cons in Hencs as [He Hencs]. apply Forall_cons in Hne as [Hne Hnes].
  destruct e as [|b e]; [done|]. rewrite /=.
  rewrite bool_decide_eq_false_2 /=; [|by apply IH].
  intros ->. specialize (He c eq_refl). congruence.
Qed.

Lemma trim_left_space_graphic (encs : list (list ascii)) (fuel : nat)
    (c : ascii) (l : list ascii) :
  Forall (λ e, ∀ b, head e = Some b → graphic b = false) encs →
  Forall (λ e, e ≠ []) encs →
  graphic c = true → trim_left_space encs fuel (c :: l) = c :: l.
Proof.
  intros Hencs Hne Hc. destruct fuel as [|fuel]; [done|].
  by rewrite /trim_left_space space_width_graphic.
Qed.

Lemma space_encodings_heads :
  Forall (λ e, ∀ b, head e = Some b → graphic b = false) space_encodings ∧
  Forall (λ e, e ≠ []) space_encodings.
Proof.
  let encs := eval vm_compute in space_encodings in change space_encodings with encs.
  split; repeat (apply Forall_cons; split); try apply Forall_nil;
    try done; by intros b [= <-].
Qed.

Lemma space_encodings_lasts :
  Forall (λ e, ∀ b, head e = Some b → graphic b = false) (reverse <$> space_encodings) ∧
  Forall (λ e, e ≠ []) (reverse <$> space_encodings).
Proof.
  let encs := eval vm_compute in (reverse <$> space_encodings) in
    change (reverse <$> space_encodings) with encs.
  split; repeat (apply Forall_cons; split); try apply Forall_nil;
    try done; by intros b [= <-].
Qed.

Lemma TrimSpace_trimmed (s : string) : trimmed s → TrimSpace s = s.
Proof.
  intros [(c & Hc & Hgc) (d & Hd & Hgd)]. apply chars_inj.
  rewrite /TrimSpace chars_of_list /trim_space -/(chars s).
  move: Hc Hd. rewrite /first_byte /last_byte.
  intros [l Hl]%head_Some Hd. rewrite Hl in Hd |- *.
  destruct space_encodings_heads as [H1 H2].
  destruct space_encodings_lasts as [H3 H4].
  rewrite trim_left_space_graphic //.
  rewrite -head_reverse in Hd. apply head_Some in Hd as [l' Hl'].
  rewrite Hl' trim_left_space_graphic // -Hl'. apply reverse_involutive.
Qed.

(** ** Lines in, lines out *)

Lemma raw_lines_line (l rest : string) :
  LF ∉ chars l → raw_lines (l +:+ str LF +:+ rest) = l :: raw_lines rest.
Proof.
  induction l as [|c l IH]; intros Hl; [done|].
  rewrite /chars /= -/(chars l) in Hl. apply not_elem_of_cons in Hl as [Hc Hl].
  rewrite append_cons /= bool_decide_eq_false_2 //. by rewrite IH.
Qed.

Lemma raw_lines_unlines (lines : list string) :
  Forall (λ l, LF ∉ chars l) lines → raw_lines (unlines lines) = lines.
Proof.
  induction 1 as [|l lines Hl Hlines IH]; [done|].
  rewrite /unlines /= -/(unlines lines) append_assoc raw_lines_line //.
  by rewrite IH.
Qed.

Lemma dropCR_id (l : string) : last_byte l ≠ Some CR → dropCR l = l.
Proof.
  induction l as [|c l IH]; [done|].
  rewrite /last_byte /chars /= -/(chars l). destruct l as [|d l].
  - rewrite /=. intros H. rewrite bool_decide_eq_false_2 //. congruence.
  - intros H. specialize (IH H). by rewrite -[in RHS]IH.
Qed.

Lemma scan_scannable (lines : list string) :
  Forall scannable lines → scan lines = (lines, None).
Proof.
  induction 1 as [|l lines (Hlf & Hcr & Hfits) Hlines IH]; [done|].
  by rewrite /= Hfits IH dropCR_id.
Qed.

Lemma NewScanner_unlines (lines : list string) :
  Forall scannable lines → NewScanner (unlines lines) = mkScanner lines None.
Proof.
  intros Hlines. rewrite /NewScanner raw_lines_unlines.
  - eapply Forall_impl; [done|]. by intros l (? & _).
  - by rewrite scan_scannable.
Qed.

(** X17: a text made of lines that each end in a newline reaches the
    parser as exactly those lines, in order and without scanner error,
    when no line ends in a carriage return or is too long for the
    scanner's buffer: [LoadFromString] of the text is the parse pass
    over the lines. *)
Theorem LoadFromString_unlines (lines : list string) (p : Parser) :
  Forall scannable lines →
  NewScanner (unlines lines) = mkScanner lines None ∧
  ∃ e p', parse (mkScanner lines None) p = Returned e p' ∧
    LoadFromString (unlines lines) p =
    Returned (Errorf_w "failed to parse input string" <$> e) p'.
Proof.
  intros Hlines. pose proof (NewScanner_unlines lines Hlines) as Hsc.
  split; [done|].
  destruct (parse_returns (mkScanner lines None) p) as (e & p' & Hparse).
  exists e, p'. split; [done|].
  rewrite /LoadFromString /bind Hsc Hparse. by destruct e.
Qed.

Lemma LoadFromString_unlines_witness :
  NewScanner ("[a]" +:+ str LF +:+ "" +:+ str LF +:+ "k=v" +:+ str LF)
  = mkScanner ["[a]"; ""; "k=v"] None.
Proof.
  apply (LoadFromString_unlines ["[a]"; ""; "k=v"] NewParser).
  repeat constructor; try done; vm_compute;
    intros H%list_elem_of_In; repeat destruct H as [H|H]; done.
Defined.

(** ** The text of [ToString], line by line *)

Lemma concat_strings_app (a b : list string) :
  concat_strings (a ++ b) = concat_strings a +:+ concat_strings b.
Proof.
  induction a as [|x a IH]; [done|]. by rewrite /= IH append_assoc.
Qed.

Lemma concat_strings_cons (x : string) (l : list string) :
  concat_strings (x :: l) = x +:+ concat_strings l.
Proof. done. Qed.

Lemma unlines_app (a b : list string) : unlines (a ++ b) = unlines a +:+ unlines b.
Proof. by rewrite /unlines fmap_app concat_strings_app. Qed.

Lemma unlines_concat (ls : list (list string)) :
  unlines (concat ls) = concat_strings (unlines <$> ls).
Proof.
  induction ls as [|l ls IH]; [done|]. by rewrite /= unlines_app IH.
Qed.

Lemma entry_line_text (kv : string * string) :
  entry_line kv.1 kv.2 = entry_text kv +:+ str LF.
Proof. by rewrite /entry_line /entry_text !append_assoc. Qed.

Lemma header_line_text (name : string) : header_line name = header_text name +:+ str LF.
Proof. by rewrite /header_line /header_text !append_assoc. Qed.

Lemma section_text_lines (range : gmap string string → list (string * string))
    (p : Parser) (name : string) :
  section_text range p name = unlines (section_lines range p name).
Proof.
  rewrite /section_text /section_lines /unlines fmap_cons concat_strings_cons.
  rewrite header_line_text. do 2 f_equal.
  rewrite /sorted_entries -!list_fmap_compose.
  apply list_fmap_ext. intros _ k _. by rewrite /= -entry_line_text.
Qed.

Lemma ToString_lines (range : gmap string string → list (string * string)) (p : Parser) :
  ToString range p = unlines (document_lines range p).
Proof.
  rewrite ToString_unfold /document_lines unlines_app unlines_concat. f_equal.
  - rewrite /unlines -list_fmap_compose. f_equal. apply list_fmap_ext.
    intros _ kv _. by rewrite /= -entry_line_text.
  - rewrite -list_fmap_compose. f_equal. apply list_fmap_ext.
    intros _ name _. apply section_text_lines.
Qed.

(** ** Plain lines *)

Lemma first_byte_append (a b : string) (c : ascii) :
  first_byte a = Some c → first_byte (a +:+ b) = Some c.
Proof. destruct a; [done|]. by rewrite append_cons. Qed.

Lemma last_byte_append (a b : string) (c : ascii) :
  last_byte b = Some c → last_byte (a +:+ b) = Some c.
Proof.
  rewrite /last_byte chars_append. intros H.
  apply last_Some in H as [l ->]. by rewrite app_assoc last_snoc.
Qed.

Lemma first_byte_cons (s : string) (c : ascii) :
  first_byte s = Some c → ∃ s', s = String c s'.
Proof. destruct s as [|d s]; [done|]. intros [= ->]. by eexists. Qed.

Lemma graphic_not (c d : ascii) : graphic c = true → graphic d = false → c ≠ d.
Proof. intros Hc Hd ->. congruence. Qed.

Lemma length_append (a b : string) :
  String.length (a +:+ b) = String.length a + String.length b.
Proof. induction a as [|c a IH]; [done|]. by rewrite append_cons /= IH. Qed.

Lemma string_drop_append (a b : string) : string_drop (String.length a) (a +:+ b) = b.
Proof. induction a as [|c a IH]; [by destruct b|]. by rewrite append_cons /= IH. Qed.

Lemma HasSuffix_append (a b : string) : HasSuffix (a +:+ b) b = true.
Proof.
  rewrite /HasSuffix length_append.
  replace (String.length a + String.length b - String.length b)
    with (String.length a) by lia.
  rewrite string_drop_append bool_decide_eq_true_2; [lia|].
  by rewrite bool_decide_eq_true_2.
Qed.

Lemma HasPrefix_char (c z : ascii) (s : string) :
  HasPrefix (String c s) (String z "") = bool_decide (z = c).
Proof. apply HasPrefix_str. Qed.

Lemma trimmed_nonempty (s : string) : trimmed s → s ≠ "".
Proof. intros [(c & Hc & _) _] ->. done. Qed.

Lemma entry_text_trimmed (kv : string * string) :
  trimmed kv.1 → trimmed kv.2 → trimmed (entry_text kv).
Proof.
  intros [(c & Hc & Hgc) _] [_ (d & Hd & Hgd)]. split.
  - exists c. split; [|done]. by apply first_byte_append.
  - exists d. split; [|done]. rewrite /entry_text. by do 2 apply last_byte_append.
Qed.

Lemma plain_entry_line (kv : string * string) :
  plain_entry kv →
  header_name (entry_text kv) = None ∧ assignment (entry_text kv) = Some kv ∧
  accepted (entry_text kv) = true ∧ scannable (entry_text kv).
Proof.
  destruct kv as [k v].
  intros ((Hk & Heq & Hklf & Hsemi & Hhash & Hbr) & (Hv & Hvlf & Hbs & Hq1 & Hq2) & Hfits).
  rewrite /= in Hk Heq Hklf Hsemi Hhash Hbr Hv Hvlf Hbs Hq1 Hq2.
  pose proof (entry_text_trimmed (k, v) Hk Hv) as Htrim.
  pose proof (TrimSpace_trimmed _ Htrim) as Hline.
  destruct Hk as [(c & Hc & Hgc) Hk']. pose proof Hc as Hc'.
  apply (first_byte_append k ("=" +:+ v)) in Hc'.
  apply first_byte_cons in Hc' as [rest Hrest].
  assert (is_skipped (entry_text (k, v)) = false) as Hskip.
  { rewrite /is_skipped /entry_text. cbn [fst snd]. rewrite Hrest !HasPrefix_char.
    rewrite !bool_decide_eq_false_2 //; congruence. }
  assert (is_header (entry_text (k, v)) = false) as Hhdr.
  { rewrite /is_header /entry_text. cbn [fst snd].
    rewrite Hrest HasPrefix_char bool_decide_eq_false_2 //. congruence. }
  assert (SplitN (entry_text (k, v)) "=" 2 = [k; v]) as Hsplit.
  { by rewrite SplitN_2 /entry_text /= Cut_first. }
  assert (TrimSpace k = k) as Hk1 by (apply TrimSpace_trimmed; split; eauto).
  assert (TrimSpace v = v) as Hv1 by by apply TrimSpace_trimmed.
  assert (k ≠ "") as Hkne by (intros ->; done).
  assert (v ≠ "") as Hvne by by apply trimmed_nonempty.
  split; [by rewrite /header_name Hline Hskip Hhdr|].
  split.
  { rewrite /assignment Hline Hskip Hhdr /= -/(SplitN _ _ 2) Hsplit Hk1 Hv1.
    by rewrite unescape_escape_transform escape_transform_id. }
  split.
  { rewrite /accepted Hline Hskip Hhdr /well_formed Hsplit Hk1 Hv1 /=.
    by rewrite !bool_decide_eq_false_2. }
  split; [|split; [|done]].
  - rewrite /entry_text /= !chars_append. rewrite !elem_of_app.
    intros [?|[H|?]]; [done| |done]. apply list_elem_of_singleton in H. done.
  - destruct Hv as [_ (d & Hd & Hgd)].
    rewrite /entry_text (last_byte_append _ _ d) /=; [by apply last_byte_append|].
    intros [= ->]. done.
Qed.

Lemma chars_header (name : string) :
  chars (header_text name) = "["%char :: chars name ++ ["]"%char].
Proof. by rewrite /header_text !chars_append. Qed.

Lemma plain_name_line (name : string) :
  plain_name name →
  header_name (header_text name) = Some name ∧ scannable (header_text name).
Proof.
  intros (Hne & Hlf & Hfirst & Hlast & Hfits).
  assert (last_byte (header_text name) = Some "]"%char) as Hl.
  { rewrite /header_text. by do 2 apply last_byte_append. }
  assert (trimmed (header_text name)) as Htrim.
  { split; [by exists "["%char|by exists "]"%char]. }
  pose proof (TrimSpace_trimmed _ Htrim) as Hline.
  split; [|split; [|split; [|done]]].
  - rewrite /header_name Hline.
    assert (is_header (header_text name) = true) as Hhdr.
    { rewrite /is_header /header_text. apply andb_true_iff. split; [done|].
      rewrite -append_assoc. apply HasSuffix_append. }
    rewrite (header_not_skipped _ Hhdr) Hhdr. f_equal.
    rewrite Trim_brackets. apply chars_inj.
    rewrite /strip_ends chars_of_list chars_header.
    rewrite [drop_front _ (_ :: _)]/= drop_front_id.
    { intros c Hc. apply Hfirst. move: Hc. rewrite /first_byte.
      destruct name as [|d name']; [done|]. by rewrite /chars /=. }
    rewrite /drop_end reverse_app /= (drop_front_id _ (reverse (chars name))).
    { intros c. rewrite head_reverse. apply Hlast. }
    apply reverse_involutive.
  - rewrite chars_header elem_of_cons elem_of_app.
    intros [?|[?|H]]; [done|done|]. by apply list_elem_of_singleton in H.
  - by rewrite Hl.
Qed.

(** ** Reading back what [ToString] wrote *)

Lemma write_all_snoc (kvs : list (string * string)) (kv : string * string)
    (m : gmap string string) :
  write_all (kvs ++ [kv]) m = <[kv.1 := kv.2]> (write_all kvs m).
Proof. by rewrite /write_all foldl_app. Qed.

Lemma write_all_list_to_map (kvs : list (string * string)) (m : gmap string string) :
  write_all kvs m = list_to_map (reverse kvs) ∪ m.
Proof.
  induction kvs as [|kv kvs IH] using rev_ind.
  { by rewrite /= left_id_L. }
  rewrite write_all_snoc IH reverse_snoc /=. destruct kv as [k v].
  by rewrite insert_union_l.
Qed.

Lemma write_all_entries (kvs : list (string * string)) (m : gmap string string) :
  kvs ≡ₚ map_to_list m → write_all kvs ∅ = m.
Proof.
  intros Hperm. rewrite write_all_list_to_map right_id_L.
  rewrite -[in RHS](list_to_map_to_list m). apply list_to_map_proper.
  - rewrite reverse_Permutation Hperm. apply NoDup_fst_map_to_list.
  - by rewrite reverse_Permutation.
Qed.

Lemma sorted_entries_Permutation (range : gmap string string → list (string * string))
    (m : gmap string string) :
  range m ≡ₚ map_to_list m → sorted_entries range m ≡ₚ map_to_list m.
Proof.
  intros Hperm. rewrite /sorted_entries.
  destruct (sorted_keys_spec range m Hperm) as (_ & Hin & Heq).
  set (ks := sort_Strings ((range m).*1)) in *.
  assert (NoDup ks) as Hnd.
  { rewrite Heq /sort_Strings merge_sort_Permutation. apply NoDup_fst_map_to_list. }
  apply NoDup_Permutation.
  - apply NoDup_fmap_2; [|done]. by intros k1 k2 [= ->].
  - apply NoDup_map_to_list.
  - intros [k v]. rewrite list_elem_of_fmap elem_of_map_to_list. split.
    + intros (k' & [= -> ->] & Hk). apply Hin in Hk as [v Hv]. by rewrite Hv.
    + intros Hv. exists k. rewrite Hv. split; [done|]. apply Hin. by exists v.
Qed.

Lemma parser_eta (q : Parser) : mkParser (data q) (globalKeys q) (sections q) = q.
Proof. by destruct q. Qed.

Lemma line_steps_entries (name : string) (kvs : list (string * string))
    (q : Parser) (m0 : gmap string string) :
  name ≠ "" → data q !! name = Some m0 → Forall plain_entry kvs →
  line_steps (name, q) (entry_text <$> kvs) =
  (name, mkParser (<[name := write_all kvs m0]> (data q)) (globalKeys q) (sections q)).
Proof.
  intros Hname Hm0 Hkvs. revert q m0 Hm0.
  induction Hkvs as [|kv kvs Hkv Hkvs IH]; intros q m0 Hm0.
  { by rewrite /= insert_id // parser_eta. }
  destruct (plain_entry_line kv Hkv) as (Hhdr & Hassign & _).
  rewrite fmap_cons /line_steps /= -/(line_steps _ (entry_text <$> kvs)).
  rewrite {1}/line_step Hhdr Hassign. destruct kv as [k v].
  rewrite /write /= bool_decide_eq_false_2 // Hm0 /=.
  rewrite (IH _ (<[k := v]> m0)) /=; [by rewrite lookup_insert_eq|].
  by rewrite insert_insert_eq.
Qed.

Lemma line_steps_section (range : gmap string string → list (string * string))
    (p : Parser) (name cur : string) (q : Parser) (m : gmap string string) :
  range m ≡ₚ map_to_list m →
  data p !! name = Some m → plain_name name →
  (∀ k v, m !! k = Some v → plain_entry (k, v)) →
  data q !! name = None →
  line_steps (cur, q) (section_lines range p name) =
  (name, mkParser (<[name := m]> (data q)) (globalKeys q) (sections q ++ [name])).
Proof.
  intros Hperm Hm Hname Hplain Hq.
  destruct (plain_name_line name Hname) as [Hhdr _].
  rewrite /section_lines Hm /= /line_steps /= -/(line_steps _ (entry_text <$> _)).
  rewrite {1}/line_step Hhdr /createSectionIfNotExist Hq /=.
  rewrite (line_steps_entries name _ _ ∅) /=.
  - by destruct Hname.
  - by rewrite lookup_insert_eq.
  - apply Forall_forall. intros [k v] Hkv. apply Hplain.
    rewrite (sorted_entries_Permutation range m Hperm) in Hkv.
    by apply elem_of_map_to_list.
  - rewrite insert_insert_eq (write_all_entries _ m) //.
    by apply sorted_entries_Permutation.
Qed.

Lemma line_steps_sections_back (range : gmap string string → list (string * string))
    (p : Parser) (names : list string) (cur : string) (q : Parser) :
  (∀ m, range m ≡ₚ map_to_list m) →
  NoDup names →
  (∀ name, name ∈ names → data q !! name = None) →
  (∀ name, name ∈ names → ∃ m, data p !! name = Some m ∧ plain_name name ∧
                               ∀ k v, m !! k = Some v → plain_entry (k, v)) →
  ∃ cur' d,
    line_steps (cur, q) (concat (section_lines range p <$> names)) =
      (cur', mkParser d (globalKeys q) (sections q ++ names)) ∧
    ∀ s, d !! s = if bool_decide (s ∈ names) then data p !! s else data q !! s.
Proof.
  intros Hperm Hnd. revert cur q.
  induction Hnd as [|name names Hnotin Hnd IH]; intros cur q Hq Hp.
  { exists cur, (data q). by rewrite /= app_nil_r parser_eta. }
  destruct (Hp name) as (m & Hm & Hname & Hplain); [by left|].
  rewrite fmap_cons concat_cons line_steps_app.
  rewrite (line_steps_section range p name cur q m) //; [by apply Hq; left|].
  destruct (IH name (mkParser (<[name := m]> (data q)) (globalKeys q)
                              (sections q ++ [name]))) as (cur' & d & Hsteps & Hd).
  - intros s Hs. rewrite /= lookup_insert_ne; [by intros ->|]. apply Hq. by right.
  - intros s Hs. apply Hp. by right.
  - exists cur', d. rewrite Hsteps /= -app_assoc. split; [done|].
    intros s. rewrite Hd /=. destruct (decide (s = name)) as [->|Hs].
    + rewrite bool_decide_eq_false_2 // lookup_insert_eq.
      rewrite bool_decide_eq_true_2; [by left|done].
    + rewrite lookup_insert_ne //.
      destruct (bool_decide_reflect (s ∈ names)) as [Hin|Hin].
      * rewrite bool_decide_eq_true_2; [by right|done].
      * rewrite bool_decide_eq_false_2; [|done].
        by intros [?|?]%elem_of_cons.
Qed.

Lemma forallb_Forall {A} (f : A → bool) (l : list A) :
  Forall (λ x, f x = true) l → forallb f l = true.
Proof. induction 1 as [|x l Hx Hl IH]; [done|]. by rewrite /= Hx IH. Qed.

Lemma document_lines_plain (range : gmap string string → list (string * string))
    (p : Parser) :
  (∀ m, range m ≡ₚ map_to_list m) → plain_document p →
  Forall (λ l, accepted l = true ∧ scannable l) (document_lines range p).
Proof.
  intros Hperm (Hnd & Hmapped & Hglobal & Hdata).
  rewrite /document_lines. apply Forall_app. split.
  - apply Forall_fmap, Forall_forall. intros [k v] Hkv.
    rewrite Hperm in Hkv. apply elem_of_map_to_list in Hkv.
    destruct (plain_entry_line (k, v) (Hglobal k v Hkv)) as (_ & _ & ? & ?). done.
  - apply Forall_concat, Forall_fmap, Forall_forall. intros name Hname.
    apply Hmapped in Hname as [m Hm]. destruct (Hdata name m Hm) as [Hplain Hentries].
    rewrite /= /section_lines Hm /=. constructor.
    + destruct (plain_name_line name Hplain) as [Hhdr ?].
      split; [by eapply header_accepted|done].
    + apply Forall_fmap, Forall_forall. intros [k v] Hkv.
      rewrite (sorted_entries_Permutation range m (Hperm m)) in Hkv.
      apply elem_of_map_to_list in Hkv.
      destruct (plain_entry_line (k, v) (Hentries k v Hkv)) as (_ & _ & ? & ?). done.
Qed.

Lemma omap_assignment_entries (kvs : list (string * string)) :
  Forall plain_entry kvs →
  omap assignment (entry_text <$> kvs) = kvs ∧
  forallb no_header (entry_text <$> kvs) = true.
Proof.
  induction 1 as [|kv kvs Hkv Hkvs [IH1 IH2]]; [done|].
  destruct (plain_entry_line kv Hkv) as (Hhdr & Hassign & _).
  split.
  - rewrite fmap_cons. change (omap assignment (entry_text kv :: (entry_text <$> kvs)))
      with (match assignment (entry_text kv) with
            | Some y => y :: omap assignment (entry_text <$> kvs)
            | None => omap assignment (entry_text <$> kvs)
            end).
    by rewrite Hassign IH1.
  - by rewrite fmap_cons /= {1}/no_header Hhdr IH2.
Qed.

(** X18: [ToString] followed by [LoadFromString] gives the document
    back.  For a document whose section sequence has no duplicates and
    names exactly the sections of the mapping, and whose keys, values
    and section names are plain (no newline; keys and values start and
    end with a printable ASCII character; no [=] in a key, which does not
    start with [;], [#] or [[]; no backslash in a value, which neither
    starts nor ends with a double quote; a section name is not empty and
    neither starts nor ends with a bracket; lines fit the scanner),
    loading the text that [ToString] writes, in whatever order Go visits
    the maps, into a new document succeeds and yields that document. *)
Theorem ToString_LoadFromString (range : gmap string string → list (string * string))
    (p : Parser) :
  (∀ m, range m ≡ₚ map_to_list m) → plain_document p →
  LoadFromString (ToString range p) NewParser = Returned None p.
Proof.
  intros Hperm Hplain.
  pose proof (document_lines_plain range p Hperm Hplain) as Hlines.
  destruct Hplain as (Hnd & Hmapped & Hglobal & Hdata).
  assert (Forall scannable (document_lines range p)) as Hscan.
  { eapply Forall_impl; [exact Hlines|]. by intros l [_ ?]. }
  assert (forallb accepted (document_lines range p) = true) as Hacc.
  { apply forallb_Forall. eapply Forall_impl; [exact Hlines|]. by intros l [? _]. }
  pose proof (NewScanner_unlines _ Hscan) as Hsc.
  rewrite ToString_lines /LoadFromString /bind Hsc parse_fold /=.
  rewrite (proj2 (first_error_None _ 0) Hacc) lines_read_all_accepted //.
  rewrite /document_lines line_steps_app.
  assert (Forall plain_entry (range (globalKeys p))) as Hg.
  { apply Forall_forall. intros [k v] Hkv. rewrite Hperm in Hkv.
    apply elem_of_map_to_list in Hkv. by apply Hglobal. }
  destruct (omap_assignment_entries _ Hg) as [Hassign Hnohdr].
  rewrite line_steps_no_section // Hassign /= (write_all_entries _ (globalKeys p)) //.
  destruct (line_steps_sections_back range p (sections p) ""
              (mkParser ∅ (globalKeys p) [])) as (cur' & d & -> & Hd); try done.
  { intros name Hname. apply Hmapped in Hname as [m Hm]. exists m.
    destruct (Hdata name m Hm). done. }
  rewrite /= -(parser_eta p). do 2 f_equal. f_equal. apply map_eq. intros s.
  rewrite Hd /=. case_bool_decide as Hs; [done|].
  rewrite lookup_empty. symmetry. apply eq_None_not_Some. by rewrite -Hmapped.
Qed.

Lemma ToString_LoadFromString_witness :
  let p := mkParser {["db" := {["port" := "5432"; "host" := "local host"]}]}
                    {["mode" := "fast"]} ["db"] in
  LoadFromString (ToString map_to_list p) NewParser = Returned None p.
Proof.
  intros p. apply ToString_LoadFromString; [done|].
  assert (∀ s : string, ∀ c, c ∉ chars s ↔ ¬ In c (chars s)) as Hin.
  { intros s c. by rewrite list_elem_of_In. }
  assert (plain_entry ("port", "5432") ∧ plain_entry ("host", "local host") ∧
          plain_entry ("mode", "fast") ∧ plain_name "db") as (H1 & H2 & H3 & H4).
  { rewrite /plain_entry /plain_key /plain_value /plain_name /trimmed !Hin.
    vm_compute. repeat split; try (by eexists); try done;
      try (intros H; repeat destruct H as [H|H]; done);
      try (by intros c [= <-]). }
  split; [repeat constructor; by intros ?%elem_of_nil|]. split; [|split].
  - intros name. rewrite /p /= list_elem_of_singleton. split.
    + intros ->. by rewrite lookup_insert_eq.
    + rewrite lookup_insert. case_decide; [done|]. rewrite lookup_empty. by intros [? ?].
  - intros k v. rewrite /p /= lookup_insert. case_decide; [by intros [= <-]; subst|].
    by rewrite lookup_empty.
  - intros name m. rewrite /p /= lookup_insert. case_decide; [|by rewrite lookup_empty].
    intros [= <-]. subst name. split; [done|]. intros k v.
    rewrite !lookup_insert. repeat case_decide; by intros [= <-]; subst.
Defined.

(** ** A line too long for the scanner *)

Lemma scan_too_long (pre post : list string) (long : string) :
  Forall scannable pre → fits long = false →
  scan (pre ++ long :: post) = (pre, Some ErrTooLong).
Proof.
  intros Hpre Hlong. induction Hpre as [|l pre (Hlf & Hcr & Hfits) Hpre IH].
  - by rewrite /= Hlong.
  - by rewrite /= Hfits IH dropCR_id.
Qed.

(** X19: a line of 65536 bytes or more stops the scanner with its
    "token too long" error.  The lines before it have been read by
    then: when they are all accepted, [LoadFromString] returns that
    error, wrapped, and leaves the document a pass over those lines
    gives; nothing after the long line is looked at. *)
Theorem LoadFromString_line_too_long (pre post : list string) (long : string)
    (p : Parser) :
  Forall scannable pre → (LF ∉ chars long) → fits long = false →
  Forall (λ l, LF ∉ chars l) post →
  NewScanner (unlines (pre ++ long :: post)) = mkScanner pre (Some ErrTooLong) ∧
  (forallb accepted pre = true →
   ∃ p', parse (mkScanner pre None) p = Returned None p' ∧
     LoadFromString (unlines (pre ++ long :: post)) p =
     Returned (Some (Errorf_w "failed to parse input string" ErrTooLong)) p').
Proof.
  intros Hpre Hlf Hlong Hpost.
  assert (NewScanner (unlines (pre ++ long :: post)) = mkScanner pre (Some ErrTooLong))
    as Hsc.
  { rewrite /NewScanner raw_lines_unlines; [|by rewrite scan_too_long].
    apply Forall_app. split; [|by constructor].
    eapply Forall_impl; [exact Hpre|]. by intros l (? & _). }
  split; [done|]. intros Hacc.
  rewrite /LoadFromString /bind Hsc !parse_fold /=.
  rewrite (proj2 (first_error_None pre 0) Hacc). by eexists.
Qed.

Lemma LoadFromString_line_too_long_witness :
  NewScanner (unlines (["[a]"; "k=v"] ++
                       String.string_of_list_ascii (replicate (N.to_nat 65536) "a"%char) :: ["x=y"]))
  = mkScanner ["[a]"; "k=v"] (Some ErrTooLong).
Proof.
  apply (LoadFromString_line_too_long ["[a]"; "k=v"] ["x=y"] _ NewParser).
  - repeat constructor; try done; vm_compute;
      intros H%list_elem_of_In; repeat destruct H as [H|H]; done.
  - rewrite chars_of_list. by intros [? _]%elem_of_replicate.
  - vm_compute. reflexivity.
  - repeat constructor. vm_compute.
    intros H%list_elem_of_In; repeat destruct H as [H|H]; done.
Defined.

(** ** What a parse pass never stores *)

Lemma strip_ends_no_end (f : ascii → bool) (s : string) (c : ascii) :
  (first_byte (strip_ends f s) = Some c → f c = false) ∧
  (last_byte (strip_ends f s) = Some c → f c = false).
Proof.
  rewrite /first_byte /last_byte /strip_ends chars_of_list. split.
  - intros Hhead.
    destruct (drop_end_prefix f (drop_front f (chars s))) as (suf & Hsuf & _).
    apply (drop_front_head f (chars s)). rewrite Hsuf.
    by destruct (drop_end f (drop_front f (chars s))).
  - apply drop_end_last.
Qed.

Lemma header_name_no_bracket (text name : string) :
  header_name text = Some name → no_bracket_at_ends name.
Proof.
  intros (_ & _ & ->)%header_name_Some. rewrite Trim_brackets.
  split; intros c; apply strip_ends_no_end.
Qed.

(** X20: a section name that a parse pass records never starts and
    never ends with a bracket, whatever the header line looked like:
    after any passes over a new document this holds of every name of
    [GetSectionNames]. *)
Theorem section_names_have_no_outer_bracket (scanners : list Scanner) :
  ∃ p, parse_all scanners NewParser = Returned () p ∧
    ∀ name, name ∈ GetSectionNames p → no_bracket_at_ends name.
Proof.
  destruct (parse_all_sections scanners NewParser) as (p & Hrun & Hs & _).
  { intros name. rewrite /= lookup_empty elem_of_nil. split; [done|by intros [? ?]]. }
  exists p. split; [done|]. intros name. rewrite /GetSectionNames Hs /=.
  intros [_ Hin]%first_appearance_elem.
  apply list_elem_of_omap in Hin as (text & _ & Htext).
  by eapply header_name_no_bracket.
Qed.

Lemma lines_read_accepted (toks : list string) : forallb accepted (lines_read toks) = true.
Proof.
  induction toks as [|t toks IH]; [done|].
  rewrite /=. destruct (accepted t) eqn:E; [|done]. by rewrite /= E IH.
Qed.

Lemma assignment_key_nonempty (text k v : string) :
  accepted text = true → assignment text = Some (k, v) → k ≠ "".
Proof.
  rewrite /accepted /assignment /well_formed.
  destruct (is_skipped (TrimSpace text)); [done|].
  destruct (is_header (TrimSpace text)); [done|]. rewrite /=.
  destruct (Cut (TrimSpace text) "=") as [[a b]|]; [|done].
  intros [Ha _]%andb_true_iff [= <- _].
  by apply negb_true_iff, bool_decide_eq_false in Ha.
Qed.

Lemma line_step_keys_nonempty (st : string * Parser) (text : string) :
  accepted text = true → keys_nonempty st.2 → keys_nonempty (line_step st text).2.
Proof.
  intros Hacc [Hg Hd]. rewrite /line_step.
  destruct (header_name text) as [name|].
  { rewrite /= /createSectionIfNotExist. destruct (data st.2 !! name) eqn:E; [done|].
    split; [done|]. intros s m. rewrite /= lookup_insert.
    case_decide; [by intros [= <-]|apply Hd]. }
  destruct (assignment text) as [[k v]|] eqn:Hkv; [|done].
  pose proof (assignment_key_nonempty text k v Hacc Hkv) as Hk.
  rewrite /= /write. case_bool_decide.
  - split; [by rewrite /= lookup_insert_ne|done].
  - split; [done|]. intros s m. rewrite /= lookup_insert.
    case_decide; [|apply Hd]. intros [= <-]. rewrite lookup_insert_ne //.
    destruct (data st.2 !! st.1) as [m0|] eqn:E; [by eapply Hd|done].
Qed.

(** X21: a parse pass never stores an empty key: if no key of the
    document is the empty string before the pass, none is after it,
    failed or not.  ([Set] has no such check.) *)
Theorem parse_stores_no_empty_key (sc : Scanner) (p : Parser) :
  keys_nonempty p →
  ∃ e p', parse sc p = Returned e p' ∧ keys_nonempty p'.
Proof.
  intros Hp. rewrite parse_fold. eexists _, _. split; [done|].
  pose proof (lines_read_accepted (tokens sc)) as Hacc.
  generalize dependent (lines_read (tokens sc)). intros toks.
  assert (∀ st, keys_nonempty st.2 → forallb accepted toks = true →
                keys_nonempty (line_steps st toks).2) as H; [|by apply (H ("", p))].
  induction toks as [|t toks IH]; intros st Hst; [done|].
  rewrite /=. intros [Ht Htoks]%andb_true_iff.
  rewrite /line_steps /= -/(line_steps _ toks). apply IH; [|done].
  by apply line_step_keys_nonempty.
Qed.

Lemma parse_stores_no_empty_key_witness :
  ∃ e p', parse (mkScanner ["[a]"; "k=v"; "=v"] None) NewParser = Returned e p' ∧
    keys_nonempty p'.
Proof.
  apply (parse_stores_no_empty_key (mkScanner ["[a]"; "k=v"; "=v"] None) NewParser).
  split; [done|]. intros s m. by rewrite /= lookup_empty.
Defined.
